(** * Saleae export parser: a shallow embedding of [saleae_parser.py]

    The development follows the source file top to bottom: string helpers
    that stand for the Python built-ins the parser calls, the base
    [Analyzer] reader (context window filter and newline repair), the SPI
    flash-read reconstructor with its S-record encoder, and the CAN frame
    grouper.  Python exceptions that end the program are modelled by
    [None] (or by the [Raise] outcome of a loop body). *)

From Stdlib Require Import ZArith Ascii String List Lia Bool.
From stdpp Require Import base option list strings gmap.

Local Open Scope string_scope.
Local Open Scope Z_scope.

(** ** Python built-ins on strings *)

Module Py.

(** The double quote character and a field wrapped in a pair of them, as
    the export writes its text columns. *)
Definition quote : ascii := "034"%char.
Definition quoted (s : string) : string := String quote (s +:+ String quote EmptyString).

(** The value of one hexadecimal digit, either case. *)
Definition hex_val (c : ascii) : option Z :=
  let n := Z.of_N (N_of_ascii c) in
  if (48 <=? n) && (n <=? 57) then Some (n - 48)
  else if (97 <=? n) && (n <=? 102) then Some (n - 87)
  else if (65 <=? n) && (n <=? 70) then Some (n - 55)
  else None.

Fixpoint int16_go (acc : Z) (s : string) : option Z :=
  match s with
  | EmptyString => Some acc
  | String c s' =>
      match hex_val c with
      | Some d => int16_go (16 * acc + d) s'
      | None => None
      end
  end.

(** [int(s, 16)] on a string of hexadecimal digits; [None] is the
    [ValueError] Python raises on the empty string or on any other
    character.  The further spellings Python accepts (a sign, a [0x]
    prefix, underscores, surrounding blanks) do not occur in the fields
    this model is used on and are mapped to [None] as well. *)
Definition int16 (s : string) : option Z :=
  match s with
  | EmptyString => None
  | _ => int16_go 0 s
  end.

(** The lower-case digit [hex] prints for a value in 0..15. *)
Definition hex_digit (d : Z) : ascii :=
  if d <? 10 then ascii_of_N (Z.to_N (48 + d)) else ascii_of_N (Z.to_N (87 + d)).

Fixpoint hex_go (fuel : nat) (n : Z) (acc : string) : string :=
  match fuel with
  | O => acc
  | S f =>
      let acc' := String (hex_digit (n mod 16)) acc in
      if n / 16 =? 0 then acc' else hex_go f (n / 16) acc'
  end.

(** [hex(n).split('0x')[1]] for [0 <= n]: the lower-case digits of [n],
    most significant first, no padding. *)
Definition hex_str (n : Z) : string :=
  hex_go (S (Z.to_nat (Z.log2 n))) n EmptyString.

Definition upper_char (c : ascii) : ascii :=
  let n := N_of_ascii c in
  if (97 <=? n)%N && (n <=? 122)%N then ascii_of_N (n - 32) else c.

(** [s.upper()] on ASCII text. *)
Fixpoint upper (s : string) : string :=
  match s with
  | EmptyString => EmptyString
  | String c s' => String (upper_char c) (upper s')
  end.

Fixpoint drop_str (n : nat) (s : string) : string :=
  match n, s with
  | O, _ => s
  | S _, EmptyString => EmptyString
  | S n', String _ s' => drop_str n' s'
  end.

(** [s[-2:]]: the last two characters, or all of [s] when it is shorter. *)
Definition last2 (s : string) : string :=
  drop_str (String.length s - 2) s.

(** [[s[i:i+2] for i in range(0, len(s), 2)]]. *)
Fixpoint pairs (s : string) : list string :=
  match s with
  | EmptyString => []
  | String a EmptyString => [String a EmptyString]
  | String a (String b r) => String a (String b EmptyString) :: pairs r
  end.

(** Iterating a [str] yields its one-character strings. *)
Fixpoint chars (s : string) : list string :=
  match s with
  | EmptyString => []
  | String c s' => String c EmptyString :: chars s'
  end.

(** [''.join(l)]. *)
Definition join (l : list string) : string :=
  fold_right String.append EmptyString l.

Fixpoint repeat_char (c : ascii) (n : nat) : string :=
  match n with
  | O => EmptyString
  | S n' => String c (repeat_char c n')
  end.

(** ["{:0>6x}".format(n)]: lower-case hex digits, right-aligned in a field
    of six, filled with ['0']; longer values are not truncated. *)
Definition format_06x (n : Z) : string :=
  let h := hex_str n in
  repeat_char "0"%char (6 - String.length h) +:+ h.

(** ['0x{0:0{1}X}'.format(n, 2).replace('0x','').upper()]: two upper-case
    hex digits (more when [n] exceeds 255). *)
Definition format_02X (n : Z) : string :=
  let h := upper (hex_str n) in
  repeat_char "0"%char (2 - String.length h) +:+ h.

(** The characters [str.rstrip()] removes (ASCII range). *)
Definition is_space (c : ascii) : bool :=
  let n := N_of_ascii c in
  ((9 <=? n)%N && (n <=? 13)%N) || ((28 <=? n)%N && (n <=? 32)%N).

(** [s.rstrip()]. *)
Fixpoint rstrip (s : string) : string :=
  match s with
  | EmptyString => EmptyString
  | String c s' =>
      match rstrip s' with
      | EmptyString => if is_space c then EmptyString else String c EmptyString
      | r => String c r
      end
  end.

(** [s.lstrip(c)] and [s.strip(c)] for a one-character [c]. *)
Fixpoint lstrip_char (c : ascii) (s : string) : string :=
  match s with
  | EmptyString => EmptyString
  | String a s' => if Ascii.eqb a c then lstrip_char c s' else s
  end.

Fixpoint rstrip_char (c : ascii) (s : string) : string :=
  match s with
  | EmptyString => EmptyString
  | String a s' =>
      match rstrip_char c s' with
      | EmptyString => if Ascii.eqb a c then EmptyString else String a EmptyString
      | r => String a r
      end
  end.

Definition strip_char (c : ascii) (s : string) : string :=
  rstrip_char c (lstrip_char c s).

(** [s.split(sep)] for a one-character separator: never the empty list. *)
Fixpoint split (sep : ascii) (s : string) : list string :=
  match s with
  | EmptyString => [EmptyString]
  | String c s' =>
      if Ascii.eqb c sep then EmptyString :: split sep s'
      else match split sep s' with
           | f :: r => String c f :: r
           | [] => [String c EmptyString]
           end
  end.

(** [s.replace(c, '')] for a one-character [c]. *)
Fixpoint remove_char (c : ascii) (s : string) : string :=
  match s with
  | EmptyString => EmptyString
  | String a s' =>
      if Ascii.eqb a c then remove_char c s' else String a (remove_char c s')
  end.

(** [s.replace('0x', '')]: every occurrence, scanned left to right. *)
Fixpoint remove_0x (s : string) : string :=
  match s with
  | EmptyString => EmptyString
  | String a s' =>
      match s' with
      | String b r =>
          if Ascii.eqb a "0" && Ascii.eqb b "x" then remove_0x r
          else String a (remove_0x s')
      | EmptyString => String a EmptyString
      end
  end.

Definition lower_char (c : ascii) : ascii :=
  let n := N_of_ascii c in
  if (65 <=? n)%N && (n <=? 90)%N then ascii_of_N (n + 32) else c.

Fixpoint prefix_ci (p s : string) : bool :=
  match p, s with
  | EmptyString, _ => true
  | String a p', String b s' =>
      Ascii.eqb (lower_char a) (lower_char b) && prefix_ci p' s'
  | String _ _, EmptyString => false
  end.

(** [re.search(p, s, re.IGNORECASE)] for a pattern [p] without regular
    expression metacharacters: a case-insensitive substring test. *)
Fixpoint search_literal (p s : string) : bool :=
  prefix_ci p s ||
  match s with
  | EmptyString => false
  | String _ s' => search_literal p s'
  end.

End Py.

Import Py.

(** ** Results of the SPI reconstructor and the S-record encoder *)

(** One entry of [self.results] after [SPI.read_file]:
    [{'address': address, 'data': data_buf}]. *)
Record transaction := Transaction {
  address : string;
  data : list string
}.

(** [Analyzer.divide_chunks]: [l[i:i+n]] for [i] in [range(0, len(l), n)].
    [range] raises [ValueError] on a zero step. *)
Definition divide_chunks {A} (l : list A) (n : nat) : option (list (list A)) :=
  match n with
  | O => None
  | _ =>
      Some (map (fun k => take n (drop (k * n) l))
                (seq 0 ((length l + n - 1) / n)))
  end.

Definition SRECORD_DATA_SIZE : nat := 32.
Definition address_size : nat := 3.
Definition checksum_size : nat := 1.

(** What one pass of the [for chunk in data_chunks] loop prints, kept as
    the four pieces the [print] call pastes after ["S2"]. *)
Record srec_line := SrecLine {
  byte_count : string;
  line_address : string;
  chunk : list string;
  checksum : string
}.

Definition render (l : srec_line) : string :=
  "S2" +:+ byte_count l +:+ line_address l +:+ join (chunk l) +:+ checksum l.

(** [temp_checksum] after summing [int(b,16)] over [bs]. *)
Fixpoint sum_int16 (bs : list string) : option Z :=
  match bs with
  | [] => Some 0
  | b :: bs' =>
      match int16 b, sum_int16 bs' with
      | Some v, Some t => Some (v + t)
      | _, _ => None
      end
  end.

(** The body of the chunk loop of [SPI.print_results] for the current
    value of [entry['address']]: the printed line and the updated address. *)
Definition encode_chunk (addr : string) (c : list string) : option (srec_line * string) :=
  let n := Z.of_nat (length c + address_size + checksum_size) in
  let bc := if n <=? 15 then "0" +:+ hex_str n else hex_str n in
  ta ← sum_int16 (pairs addr);
  tc ← sum_int16 c;
  bcv ← int16 bc;
  let cs := hex_str (bcv + (ta + tc)) in
  let cs := last2 cs in
  csv ← int16 cs;
  let cs := hex_str (Z.lxor csv 255) in
  let cs := upper cs in
  let cs := if (String.length cs =? 1)%nat then "0" +:+ cs else cs in
  a ← int16 addr;
  Some (SrecLine bc addr c cs,
        upper (format_06x (a + Z.of_nat SRECORD_DATA_SIZE))).

Fixpoint encode_chunks (addr : string) (cs : list (list string)) : option (list srec_line) :=
  match cs with
  | [] => Some []
  | c :: cs' =>
      '(l, addr') ← encode_chunk addr c;
      ls ← encode_chunks addr' cs';
      Some (l :: ls)
  end.

(** [data_chunks]: the list of slices when the transaction has more than
    32 bytes, and otherwise [entry['data']] itself, whose elements (the
    two-character strings) are then what the chunk loop iterates, each one
    as the sequence of its characters. *)
Definition data_chunks (e : transaction) : option (list (list string)) :=
  if (SRECORD_DATA_SIZE <? length (data e))%nat
  then divide_chunks (data e) SRECORD_DATA_SIZE
  else Some (map chars (data e)).

(** The lines [SPI.print_results] prints for one entry under [-s]. *)
Definition srecord_entry (e : transaction) : option (list srec_line) :=
  cs ← data_chunks e;
  encode_chunks (address e) cs.

(** The whole S-record output, entry after entry. *)
Fixpoint srecord_lines (results : list transaction) : option (list srec_line) :=
  match results with
  | [] => Some []
  | e :: es =>
      ls ← srecord_entry e;
      rest ← srecord_lines es;
      Some (ls ++ rest)%list
  end.

(** The sum the claim speaks of: the byte count, the address bytes, the
    chunk's data bytes and the checksum byte of one printed line, each
    read back as a hexadecimal number. *)
Definition line_sum (l : srec_line) : option Z :=
  bc ← int16 (byte_count l);
  ta ← sum_int16 (pairs (line_address l));
  tc ← sum_int16 (chunk l);
  ck ← int16 (checksum l);
  Some (bc + ta + tc + ck).


(** ** The base reader: [Analyzer.read_file] *)

(** One entry of [self.results] of the base reader.  The keys ['before']
    and ['after'] may be absent from the dictionary, hence the options. *)
Record record := Rec {
  val : list string;
  before : option (list (list string));
  after : option (list (list string))
}.

(** The attributes of [Analyzer] that [read_file] consults.  [cfg_before]
    and [cfg_after] are [Some] exactly when the attribute exists, that is
    when the command line gave a non-zero number. *)
Record config := Config {
  cfg_data_filter : option string;
  cfg_before : option Z;
  cfg_after : option Z
}.

(** [self.header_pos] after the header loop: every name, stripped by
    [norm], mapped to its position; a repeated name keeps the last one. *)
Fixpoint header_positions (norm : string -> string) (hs : list string) (i : nat)
    (m : gmap string nat) : gmap string nat :=
  match hs with
  | [] => m
  | h :: hs' => header_positions norm hs' (S i) (<[norm h := i]> m)
  end.

(** [self.results[-1]['after'] = buf]; the caller has checked that the
    list is not empty. *)
Fixpoint set_last_after (buf : list (list string)) (rs : list record) : list record :=
  match rs with
  | [] => []
  | [r] => [Rec (val r) (before r) (Some buf)]
  | r :: rs' => r :: set_last_after buf rs'
  end.

(** ['after' not in self.results[-1]]. *)
Definition last_lacks_after (rs : list record) : bool :=
  match last rs with
  | Some r => match after r with None => true | Some _ => false end
  | None => false
  end.

Record reader_state := ReaderState {
  before_buffer : list (list string);
  after_buffer : list (list string);
  results : list record
}.

Section BaseReader.

(** [re.search(pattern, line, re.IGNORECASE)] as a truth value. *)
Variable re_search : string -> string -> bool.
Variable cfg : config.

(** [if self.data_filter:] holds for a non-empty pattern. *)
Definition active_filter : option string :=
  match cfg_data_filter cfg with
  | Some EmptyString | None => None
  | Some p => Some p
  end.

(** The [else] branch of the line loop for one line after the header;
    [None] is the [IndexError] of [before_buffer.pop(0)] on an empty
    buffer. *)
Definition read_line (st : reader_state) (line : string) : option reader_state :=
  let line := rstrip line in
  let values := split "," line in
  match active_filter with
  | Some pat =>
      if re_search pat line then
        let rs := match results st with
                  | [] => []
                  | _ => set_last_after (after_buffer st) (results st)
                  end in
        Some (ReaderState [] []
                (rs ++ [Rec values (Some (before_buffer st)) None])%list)
      else
        bb ← match cfg_before cfg with
             | Some b =>
                 if Z.of_nat (length (before_buffer st)) <? b
                 then Some (before_buffer st ++ [values])%list
                 else match before_buffer st with
                      | [] => None
                      | _ :: tl => Some (tl ++ [values])%list
                      end
             | None => Some (before_buffer st)
             end;
        match cfg_after cfg, results st with
        | Some a, _ :: _ =>
            if Z.of_nat (length (after_buffer st)) <? a
            then Some (ReaderState bb (after_buffer st ++ [values])%list (results st))
            else if last_lacks_after (results st)
                 then Some (ReaderState bb (after_buffer st)
                              (set_last_after (after_buffer st) (results st)))
                 else Some (ReaderState bb (after_buffer st) (results st))
        | _, _ => Some (ReaderState bb (after_buffer st) (results st))
        end
  | None =>
      Some (ReaderState (before_buffer st) (after_buffer st)
              (results st ++ [Rec values None None])%list)
  end.

Fixpoint read_lines (st : reader_state) (lines : list string) : option reader_state :=
  match lines with
  | [] => Some st
  | l :: ls => st' ← read_line st l; read_lines st' ls
  end.

End BaseReader.

(** The repair loop of one short record: its last field is glued to the
    first field of the next record with a line feed, the other fields of
    the next record are appended and the next record is popped, until the
    record is no longer short.  [None] is an [IndexError]: no next record,
    or an empty field list. *)
Definition merge_next (r nx : record) : option record :=
  match last (val r), val nx with
  | Some l, f :: tl =>
      Some (Rec (removelast (val r) ++ [l +:+ String "010"%char EmptyString +:+ f] ++ tl)%list
                (before r) (after r))
  | _, _ => None
  end.

(** The pass [for idx, r in enumerate(self.results)] with its inner
    [while]: [cur] is [self.results[idx]] and [rest] what follows it. *)
Fixpoint repair_from (n : nat) (cur : record) (rest : list record) : option (list record) :=
  if (length (val cur) <? n)%nat then
    match rest with
    | [] => None
    | nx :: rest' => cur' ← merge_next cur nx; repair_from n cur' rest'
    end
  else
    match rest with
    | [] => Some [cur]
    | nx :: rest' => tl ← repair_from n nx rest'; Some (cur :: tl)
    end.

Definition repair (n : nat) (rs : list record) : option (list record) :=
  match rs with
  | [] => Some []
  | r :: rest => repair_from n r rest
  end.

(** [Analyzer.read_file] on the lines of the export: the headers and the
    repaired results. *)
Definition read_file (re_search : string -> string -> bool) (cfg : config)
    (lines : list string) : option (list string * list record) :=
  match lines with
  | [] => Some ([], [])
  | h :: rows =>
      let headers := split "," (rstrip h) in
      st ← read_lines re_search cfg (ReaderState [] [] []) rows;
      rs ← repair (length headers) (results st);
      Some (headers, rs)
  end.

(** What the listing loop of [Analyzer.print_results] prints (no column
    filter): a field list per [print] of a row, or an empty line. *)
Inductive printed :=
  | PrintRow (fields : list string)
  | PrintBlank.

(** The loop body for one record; [None] is the [KeyError] of reading a
    key the record does not have. *)
Definition print_record (cfg : config) (r : record) : option (list printed) :=
  let filtering := match cfg_data_filter cfg with
                   | Some (String _ _) => true
                   | _ => false
                   end in
  bs ← (if bool_decide (is_Some (cfg_before cfg)) && filtering
        then before r else Some []);
  afs ← (if bool_decide (is_Some (cfg_after cfg)) && filtering
         then after r else Some []);
  Some (map PrintRow bs ++ [PrintRow (val r)] ++ map PrintRow afs
        ++ (if (bool_decide (is_Some (cfg_before cfg))
                || bool_decide (is_Some (cfg_after cfg))) && filtering
            then [PrintBlank] else []))%list.

Fixpoint print_results (cfg : config) (rs : list record) : option (list printed) :=
  match rs with
  | [] => Some []
  | r :: rs' =>
      out ← print_record cfg r;
      rest ← print_results cfg rs';
      Some (out ++ rest)%list
  end.

(** ** The SPI flash-read reconstructor: [SPI.read_file] under [-s] or [--binary] *)

(** One value of [self.devices]. *)
Record device := Device {
  READ : string;
  FAST_READ : string;
  FAST_DUAL_READ : string;
  FAST_QUAD_READ : string;
  SIZE : Z
}.

Definition devices : list (string * device) :=
  [("DEFAULT", Device "03" "0B" "3B" "EB" (0x3FFFFFF + 256));
   ("W25Q64FW", Device "03" "0B" "3B" "EB" (0x7FFFFF + 256));
   ("W25Q16JV", Device "03" "0B" "3B" "EB" (0x1FFFFF + 256));
   ("W25Q128JVSQ", Device "03" "0B" "3B" "EB" (0xFFFFFF + 256));
   ("W25Q256JV", Device "03" "0B" "3B" "EB" (0x1FFFFFF + 256));
   ("W25Q512JV", Device "03" "0B" "3B" "EB" (0x3FFFFFF + 256))].

Definition find_device (name : string) : option device :=
  snd <$> List.find (fun p => String.eqb (fst p) name) devices.

(** [self.device] as [SPI.__init__] chooses it from [args.device]: an
    absent, empty or unknown name gives the DEFAULT profile. *)
Definition select_device (name : option string) : device :=
  let dflt := Device "03" "0B" "3B" "EB" (0x3FFFFFF + 256) in
  match name with
  | Some (String c n) => default dflt (find_device (String c n))
  | _ => dflt
  end.

(** The loop variables of [SPI.read_file] that live across lines, and
    [self.results].  [command_found] is [None] while the Python variable
    is [False] and otherwise holds the opcode string assigned to it (every
    opcode of [devices] is non-empty, hence truthy).  [mosi_val] and
    [miso_val] are assigned on every line before they are read and are
    not part of the state. *)
Record spi_state := SpiState {
  data_buf : list string;
  command_found : option string;
  count : Z;
  cur_address : string;
  res_count : Z;
  spi_results : list transaction
}.

Definition spi_init : spi_state := SpiState [] None 0 EmptyString 0 [].

(** How one pass of a line loop ends: the next line is read, the function
    returns, or an exception ends the program. *)
Inductive flow (S : Type) :=
  | Continue (st : S)
  | Return (st : S)
  | Raise.
Arguments Continue {S} st.
Arguments Return {S} st.
Arguments Raise {S}.

(** The bit interleave of the dual read, on two nibbles: the bits of [na]
    go to positions 7,5,3,1 and the bits of [nb] to positions 6,4,2,0. *)
Definition interleave (na nb : Z) : Z :=
  Z.lor (Z.lor (Z.lor (Z.lor (Z.lor (Z.lor (Z.lor
    (Z.shiftl (Z.land na 0x8) 4)
    (Z.shiftl (Z.land nb 0x8) 3))
    (Z.shiftl (Z.land na 0x4) 3))
    (Z.shiftl (Z.land nb 0x4) 2))
    (Z.shiftl (Z.land na 0x2) 2))
    (Z.shiftl (Z.land nb 0x2) 1))
    (Z.shiftl (Z.land na 0x1) 1))
    (Z.land nb 0x1).

(** [upper_byte] and [lower_byte] for [a = int(miso_val,16)] and
    [b = int(mosi_val,16)]. *)
Definition upper_byte (a b : Z) : Z :=
  let nibble_up_a := Z.shiftr (Z.land a 0xf0) 4 in
  let nibble_up_b := Z.shiftr (Z.land b 0xf0) 4 in
  interleave nibble_up_a nibble_up_b.

Definition lower_byte (a b : Z) : Z :=
  let nibble_low_a := Z.land a 0x0f in
  let nibble_low_b := Z.land b 0x0f in
  interleave nibble_low_a nibble_low_b.

Section Reconstructor.

Variable dev : device.

(** The four-way opcode test of the type-less parser. *)
Definition is_opcode (mosi_val : string) : bool :=
  String.eqb mosi_val (READ dev) || String.eqb mosi_val (FAST_READ dev)
  || String.eqb mosi_val (FAST_DUAL_READ dev) || String.eqb mosi_val (FAST_QUAD_READ dev).

(** One bus cycle of an active command [cmd]; the text of this cascade is
    the same in both parsers. *)
Definition cycle (cmd : string) (st : spi_state) (mosi_val miso_val : string)
    : flow spi_state :=
  let bump a d :=
    Continue (SpiState d (command_found st) (count st + 1) a (res_count st)
                (spi_results st)) in
  if String.eqb cmd (READ dev) then
    if count st <=? 3 then bump (cur_address st +:+ mosi_val) (data_buf st)
    else bump (cur_address st) (data_buf st ++ [miso_val])%list
  else if String.eqb cmd (FAST_READ dev) then
    if count st <=? 3 then bump (cur_address st +:+ mosi_val) (data_buf st)
    else if count st =? 4 then bump (cur_address st) (data_buf st)
    else bump (cur_address st) (data_buf st ++ [miso_val])%list
  else if String.eqb cmd (FAST_DUAL_READ dev) then
    if count st <=? 3 then bump (cur_address st +:+ mosi_val) (data_buf st)
    else if count st =? 4 then bump (cur_address st) (data_buf st)
    else
      match int16 miso_val with
      | None => Raise
      | Some a =>
          match int16 mosi_val with
          | None => Raise
          | Some b =>
              bump (cur_address st)
                   (data_buf st ++ [format_02X (upper_byte a b);
                                    format_02X (lower_byte a b)])%list
          end
      end
  else if String.eqb cmd (FAST_QUAD_READ dev) then
    bump (cur_address st) (data_buf st)
  else Continue st.

Variable headers : list string.
Variable header_pos : gmap string nat.

(** [values[self.header_pos[name]]]; [None] is a [KeyError] or an
    [IndexError]. *)
Definition field (values : list string) (name : string) : option string :=
  i ← header_pos !! name; values !! i.

(** The branch for a ["result"] row of an export with a [type] column,
    after [mosi_val] and [miso_val] were read. *)
Definition typed_result (st : spi_state) (mosi_val miso_val : string)
    : flow spi_state :=
  match command_found st with
  | None =>
      let found cmd cnt :=
        Continue (SpiState (data_buf st) (Some cmd) cnt (cur_address st)
                    (res_count st) (spi_results st)) in
      if String.eqb mosi_val (READ dev) && (res_count st =? 0)
      then found (READ dev) (count st + 1)
      else if String.eqb mosi_val (FAST_READ dev) && (res_count st =? 0)
      then found (FAST_READ dev) (count st)
      else if String.eqb mosi_val (FAST_DUAL_READ dev) && (res_count st =? 0)
      then found (FAST_DUAL_READ dev) (count st)
      else if String.eqb mosi_val (FAST_QUAD_READ dev) && (res_count st =? 0)
      then found (FAST_QUAD_READ dev) (count st)
      else Continue (SpiState (data_buf st) None (count st) (cur_address st)
                       (res_count st + 1) (spi_results st))
  | Some cmd => cycle cmd st mosi_val miso_val
  end.

(** The parser for an export with a [type] column. *)
Definition typed_row (st : spi_state) (values : list string) : flow spi_state :=
  match field values "type" with
  | None => Raise
  | Some ty =>
      if String.eqb ty (quoted "disable") then
        match command_found st with
        | Some _ =>
            Continue (SpiState [] None 0 EmptyString 0
                        (spi_results st ++ [Transaction (cur_address st) (data_buf st)])%list)
        | None =>
            Continue (SpiState (data_buf st) None (count st) (cur_address st) 0
                        (spi_results st))
        end
      else if String.eqb ty (quoted "result") then
        if decide ("miso" ∈ headers) then
          match field values "mosi" with
          | None => Raise
          | Some mo =>
              match field values "miso" with
              | None => Raise
              | Some mi => typed_result st (remove_0x mo) (remove_0x mi)
              end
          end
        else Return st
      else Continue st
  end.

(** The parser for an export without a [type] column, after [mosi_val]
    and [miso_val] were read. *)
Definition untyped_cycle (st : spi_state) (mosi_val miso_val : string)
    : flow spi_state :=
  let st1 :=
    match command_found st with
    | Some _ =>
        if (4 <? count st) && is_opcode mosi_val
        then SpiState [] None 0 EmptyString (res_count st)
               (spi_results st ++ [Transaction (cur_address st) (data_buf st)])%list
        else st
    | None => st
    end in
  match command_found st1 with
  | None =>
      let found cmd :=
        Continue (SpiState (data_buf st1) (Some cmd) (count st1 + 1)
                    (cur_address st1) (res_count st1) (spi_results st1)) in
      if String.eqb mosi_val (READ dev) then found (READ dev)
      else if String.eqb mosi_val (FAST_READ dev) then found (FAST_READ dev)
      else if String.eqb mosi_val (FAST_DUAL_READ dev) then found (FAST_DUAL_READ dev)
      else if String.eqb mosi_val (FAST_QUAD_READ dev) then found (FAST_QUAD_READ dev)
      else Continue st1
  | Some cmd => cycle cmd st1 mosi_val miso_val
  end.

Definition untyped_row (st : spi_state) (values : list string) : flow spi_state :=
  let go mosi miso :=
    match field values mosi with
    | None => Raise
    | Some mo =>
        match field values miso with
        | None => Raise
        | Some mi => untyped_cycle st (remove_0x mo) (remove_0x mi)
        end
    end in
  if decide ("miso" ∈ headers) then go "mosi" "miso"
  else if decide ("MISO" ∈ headers) then go "MOSI" "MISO"
  else Return st.

(** The field list of a line, or [None] when the line is skipped with a
    warning.  A quote is appended when the count is off, which leaves
    the count as it was. *)
Definition row_values (line : string) : option (list string) :=
  let line := rstrip line in
  let values := split "," line in
  let line := if (length values =? size header_pos)%nat then line
              else line +:+ String quote EmptyString in
  let values := split "," line in
  if (length values =? size header_pos)%nat then Some values else None.

(** The body of the line loop for one line after the header. *)
Definition spi_line (st : spi_state) (line : string) : flow spi_state :=
  match row_values line with
  | None => Continue st
  | Some values =>
      if decide ("type" ∈ headers) then typed_row st values
      else untyped_row st values
  end.

Fixpoint spi_lines (st : spi_state) (lines : list string) : flow spi_state :=
  match lines with
  | [] => Continue st
  | l :: ls =>
      match spi_line st l with
      | Continue st' => spi_lines st' ls
      | stop => stop
      end
  end.

End Reconstructor.

Definition spi_headers (line : string) : list string :=
  split "," (remove_char quote (rstrip line)).

(** [SPI.read_file] when [args.srecord] or [args.binary] is set. *)
Definition spi_read_file (dev : device) (lines : list string) : flow spi_state :=
  match lines with
  | [] => Continue spi_init
  | h :: rows =>
      let headers := spi_headers h in
      spi_lines dev headers (header_positions (fun x => x) headers 0 ∅) spi_init rows
  end.

(** [self.results] once [read_file] is over, when it ends normally. *)
Definition spi_outcome (f : flow spi_state) : option (list transaction) :=
  match f with
  | Continue st | Return st => Some (spi_results st)
  | Raise => None
  end.

(** ** The CAN frame grouper: [CAN.read_file] with [--can] *)

Record can_frame := CanFrame {
  id : string;
  frame_data : list string
}.

(** [identifier] is the Python flag; [temp_entry] is always bound when
    the flag is set. *)
Record can_state := CanState {
  identifier : bool;
  temp_entry : can_frame;
  id_counter : gmap string nat;
  can_results : list can_frame
}.

Definition can_init : can_state := CanState false (CanFrame EmptyString []) ∅ [].

Definition can_line (header_pos : gmap string nat) (st : can_state) (line : string)
    : option can_state :=
  let values := split "," (rstrip line) in
  ty ← field header_pos values "type";
  if String.eqb ty (quoted "identifier_field") then
    idv ← field header_pos values "identifier";
    if identifier st then
      Some (CanState true (CanFrame idv [])
              (match id_counter st !! idv with
               | Some n => <[idv := S n]> (id_counter st)
               | None => <[idv := 1%nat]> (id_counter st)
               end)
              (can_results st ++ [temp_entry st])%list)
    else
      Some (CanState true (CanFrame idv []) (<[idv := 1%nat]> (id_counter st))
              (can_results st))
  else if String.eqb ty (quoted "data_field") then
    if identifier st then
      d ← field header_pos values "data";
      Some (CanState true
              (CanFrame (id (temp_entry st)) (frame_data (temp_entry st) ++ [d])%list)
              (id_counter st) (can_results st))
    else Some st
  else Some st.

Fixpoint can_lines (header_pos : gmap string nat) (st : can_state) (lines : list string)
    : option can_state :=
  match lines with
  | [] => Some st
  | l :: ls => st' ← can_line header_pos st l; can_lines header_pos st' ls
  end.

(** [CAN.read_file]: [self.results] and [self.id_counter] at the end. *)
Definition can_read_file (lines : list string)
    : option (list can_frame * gmap string nat) :=
  match lines with
  | [] => Some ([], ∅)
  | h :: rows =>
      let headers := split "," (rstrip h) in
      st ← can_lines (header_positions (strip_char quote) headers 0 ∅) can_init rows;
      Some (can_results st, id_counter st)
  end.

(** ** Reading the dual-read bytes back *)

(** The inverse bit extraction the specification describes: the bits at
    the odd positions 7,5,3,1 of a byte, packed into a nibble, and the
    bits at the even positions 6,4,2,0. *)
Definition odd_bits (x : Z) : Z :=
  Z.lor (Z.lor (Z.lor
    (Z.shiftl (Z.land (Z.shiftr x 7) 1) 3)
    (Z.shiftl (Z.land (Z.shiftr x 5) 1) 2))
    (Z.shiftl (Z.land (Z.shiftr x 3) 1) 1))
    (Z.land (Z.shiftr x 1) 1).

Definition even_bits (x : Z) : Z :=
  Z.lor (Z.lor (Z.lor
    (Z.shiftl (Z.land (Z.shiftr x 6) 1) 3)
    (Z.shiftl (Z.land (Z.shiftr x 4) 1) 2))
    (Z.shiftl (Z.land (Z.shiftr x 2) 1) 1))
    (Z.land x 1).

(** The data-line byte is read back from the odd positions of the two
    output bytes, the command-line byte from the even positions. *)
Definition deinterleave_odd (upper lower : Z) : Z :=
  Z.lor (Z.shiftl (odd_bits upper) 4) (odd_bits lower).

Definition deinterleave_even (upper lower : Z) : Z :=
  Z.lor (Z.shiftl (even_bits upper) 4) (even_bits lower).

(** ** Hexadecimal text and byte ranges *)

(** Strings of hexadecimal digits. *)
Fixpoint hexb (s : string) : bool :=
  match s with
  | EmptyString => true
  | String c s' => match hex_val c with Some _ => hexb s' | None => false end
  end.

(** A non-empty string of hexadecimal digits: what [int(s,16)] accepts. *)
Definition hex_field (s : string) : bool :=
  match s with
  | EmptyString => false
  | _ => hexb s
  end.

(** The numbers 0 .. n-1, for checks that run over all bytes or nibbles. *)
Definition bytes_upto (n : nat) : list Z := map Z.of_nat (seq 0 n).

(** On nibbles the interleave is undone by the two extractions; the 256
    pairs of nibbles are checked one by one. *)
Definition nibble_roundtrip_at (na nb : Z) : bool :=
  (odd_bits (interleave na nb) =? na) && (even_bits (interleave na nb) =? nb).

(** A byte is its two nibbles, as the source masks and shifts them. *)
Definition byte_nibbles_at (a : Z) : bool :=
  (Z.shiftr (Z.land a 0xf0) 4 <? 16) && (0 <=? Z.shiftr (Z.land a 0xf0) 4)
  && (Z.land a 0x0f <? 16) && (0 <=? Z.land a 0x0f)
  && (Z.lor (Z.shiftl (Z.shiftr (Z.land a 0xf0) 4) 4) (Z.land a 0x0f) =? a).

(** ** Counting rows and the invariants of the reconstructor *)

(** The count the claim speaks of: the well-formed ["result"] rows since
    the last ["disable"] row, or since the start of the stream. *)
Definition since_disable_step (hp : gmap string nat) (acc : Z) (line : string) : Z :=
  match row_values hp line with
  | Some values =>
      match field hp values "type" with
      | Some ty =>
          if String.eqb ty (quoted "disable") then 0
          else if String.eqb ty (quoted "result") then acc + 1
          else acc
      | None => acc
      end
  | None => acc
  end.

Fixpoint results_since_disable (hp : gmap string nat) (acc : Z) (lines : list string) : Z :=
  match lines with
  | [] => acc
  | l :: ls => results_since_disable hp (since_disable_step hp acc l) ls
  end.

(** While no command is active [res_count] is that count; while one is
    active it is 0. *)
Definition res_count_inv (st : spi_state) (acc : Z) : Prop :=
  match command_found st with
  | None => res_count st = acc
  | Some _ => res_count st = 0
  end.







(** ** Rows cut in two by a newline *)


(** The records of the rows as the unfiltered reader appends them. *)
Definition raw_records (rows : list string) : list record :=
  map (fun l => Rec (split "," (rstrip l)) None None) rows.




(** ** Example exports *)

(** Scenario C of the specification: 33 data bytes at address 000000. *)
Definition transaction33 : transaction := Transaction "000000" (repeat "00" 33).

Definition can_trace : list string :=
  ["name,type,identifier,data";
   quoted "CAN" +:+ "," +:+ quoted "identifier_field" +:+ ",101,";
   quoted "CAN" +:+ "," +:+ quoted "data_field" +:+ ",,0xAA";
   quoted "CAN" +:+ "," +:+ quoted "identifier_field" +:+ ",101,";
   quoted "CAN" +:+ "," +:+ quoted "data_field" +:+ ",,0xBB"].

Definition filter_trace : list string := ["name,data"; "x,0xA5"; "y,0x00"].
Definition filter_cfg : config := Config (Some "A5") None (Some 2).

Definition typed_upper_case_trace : list string :=
  ["name,type,start_time,duration,MOSI,MISO";
   quoted "SPI" +:+ "," +:+ quoted "result" +:+ ",0.1,0.2,0x03,0xFF"].

Definition untyped_upper_case_trace : list string :=
  ["name,start_time,duration,MOSI,MISO";
   quoted "SPI" +:+ ",0.1,0.2,0x03,0xFF"].

(** Rows of the two export shapes, for the examples. *)
Definition typed_headers : list string := spi_headers "Time [s],name,type,mosi,miso".
Definition typed_pos : gmap string nat := header_positions (fun x => x) typed_headers 0 ∅.
Definition result_row (mosi miso : string) : string :=
  "0.0," +:+ quoted "SPI" +:+ "," +:+ quoted "result" +:+ "," +:+ mosi +:+ "," +:+ miso.
Definition disable_row : string :=
  "0.0," +:+ quoted "SPI" +:+ "," +:+ quoted "disable" +:+ ",,".

Definition cycle_row (mosi miso : string) : string :=
  "0.0,0," +:+ mosi +:+ "," +:+ miso.

Definition read_then_same_opcode : list string :=
  ["Time [s],Packet ID,MOSI,MISO";
   cycle_row "0x03" "0xFF";
   cycle_row "0x00" "0xFF"; cycle_row "0x01" "0xFF"; cycle_row "0x02" "0xFF";
   cycle_row "0x00" "0xAA"].

Definition fast_read_rows : list string :=
  [cycle_row "0x0B" "0xFF";
   cycle_row "0x00" "0xFF"; cycle_row "0x01" "0xFF"; cycle_row "0x02" "0xFF";
   cycle_row "0x00" "0xFF"; cycle_row "0x00" "0xAA"].



Definition typed_fast_read_trace : list string :=
  ["Time [s],name,type,mosi,miso";
   result_row "0x0B" "0xFF";
   result_row "0x00" "0xFF"; result_row "0x01" "0xFF"; result_row "0x02" "0xFF";
   result_row "0x00" "0xFF"; result_row "0x00" "0xAA";
   disable_row].




(** ** Further examples for the S-record encoder *)

Definition bytes70 : list string := repeat "1f" 70.

(** A data byte as the reconstructor stores it: two hexadecimal digits. *)
Definition hex_byte (d : string) : bool :=
  hex_field d && (String.length d =? 2)%nat.

(** ** Invariants of the buffers of the reconstructor *)




Definition no_data_column_trace : list string :=
  [result_row "0x03" "0xFF"; disable_row; result_row "0x00" "0xAA"].


(** ** Reading the rows of a transaction *)

(** The two bytes of a well-formed ["result"] row of an export with a
    [type] column, as [mosi_val] and [miso_val] receive them. *)
Definition result_cycle (hp : gmap string nat) (line : string) : option (string * string) :=
  values ← row_values hp line;
  ty ← field hp values "type";
  if String.eqb ty (quoted "result") then
    mo ← field hp values "mosi";
    mi ← field hp values "miso";
    Some (remove_0x mo, remove_0x mi)
  else None.

(** A well-formed ["disable"] row. *)
Definition is_disable_row (hp : gmap string nat) (line : string) : bool :=
  match row_values hp line with
  | Some values =>
      match field hp values "type" with
      | Some ty => String.eqb ty (quoted "disable")
      | None => false
      end
  | None => false
  end.



Definition read_rows : list string :=
  [result_row "0x00" "0xFF"; result_row "0x01" "0xFF"; result_row "0x02" "0xFF";
   result_row "0x00" "0xAA"; result_row "0x00" "0xBB"].


(** ** The context window, told row by row *)

(** The last [n] elements of a list. *)
Definition lastn {A} (n : nat) (l : list A) : list A :=
  drop (length l - n) l.

(** The ['before'] context of every anchor of [rows], in order: the last
    [b] of the non-matching rows read since the previous anchor
    ([pending] holds the ones read so far). *)
Fixpoint before_contexts (re_search : string -> string -> bool) (pat : string)
    (b : nat) (pending : list (list string)) (rows : list string)
    : list (list (list string)) :=
  match rows with
  | [] => []
  | l :: ls =>
      if re_search pat (rstrip l)
      then lastn b pending :: before_contexts re_search pat b [] ls
      else before_contexts re_search pat b (pending ++ [split "," (rstrip l)])%list ls
  end.

(** The ['after'] key of every anchor of [rows], in order.  [run] is
    [None] before the first anchor and afterwards holds the non-matching
    rows read since the latest anchor.  An anchor followed by another
    anchor has the first [a] rows of its run; the last anchor has them
    only if its run is longer than [a], and no key otherwise. *)
Fixpoint after_contexts (re_search : string -> string -> bool) (pat : string)
    (a : nat) (run : option (list (list string))) (rows : list string)
    : list (option (list (list string))) :=
  match rows with
  | [] =>
      match run with
      | None => []
      | Some r => [if (a <? length r)%nat then Some (take a r) else None]
      end
  | l :: ls =>
      if re_search pat (rstrip l)
      then (match run with
           | None => []
           | Some r => [Some (take a r)]
           end ++ after_contexts re_search pat a (Some []) ls)%list
      else after_contexts re_search pat a
             (option_map (fun r => (r ++ [split "," (rstrip l)])%list) run) ls
  end.

Definition window_rows : list string :=
  ["p,0x01"; "q,0x02"; "x,0xA5"; "r,0x03"; "s,0x04"; "t,0x05"; "y,0xa5"; "u,0x06"].

(** What the reader holds for the ['after'] side when [run] is the run of
    the latest anchor: the buffer is the first [a] rows of the run, and
    the latest anchor has its key only once the run is longer than [a]. *)
Definition after_inv (a : nat) (st : reader_state) (run : option (list (list string)))
    : Prop :=
  match run with
  | None => results st = []
  | Some r =>
      exists rs lst,
        results st = (rs ++ [lst])%list
        /\ after_buffer st = take a r
        /\ after lst = if (a <? length r)%nat then Some (take a r) else None
  end.

(** ** The listing with a column filter: [Analyzer.print_results] under [-f] *)

(** [self.header_pos] as the base reader builds it: the wrapping quotes
    of every header name are stripped. *)
Definition base_header_pos (headers : list string) : gmap string nat :=
  header_positions (strip_char quote) headers 0 ∅.

(** What the loop prints under a column filter [c]: a line of text per
    [print] call.  For a known column the value of every record is
    printed unless it is empty; for an unknown column the first record
    prints the complaint and the header names and the loop breaks.
    [None] is the [IndexError] of a record that is too short. *)
Fixpoint print_column (headers : list string) (hp : gmap string nat) (c : string)
    (rs : list record) : option (list string) :=
  match rs with
  | [] => Some []
  | r :: rs' =>
      match hp !! c with
      | Some i =>
          v ← val r !! i;
          rest ← print_column headers hp c rs';
          Some (if String.eqb v EmptyString then rest else v :: rest)
      | None =>
          Some ("Column filter value doesn't exists in file"
                :: "Avaiable Columns:" :: headers)
      end
  end.

Definition column_records : list record :=
  [Rec ["a"; "1"] None None; Rec ["b"; EmptyString] None None; Rec ["c"; "3"] None None].

(** ** The rows of a CAN export and their frames *)

(** The identifier of an identifier-field row, and the data byte of a
    data-field row. *)
Definition can_identifier (hp : gmap string nat) (line : string) : option string :=
  let values := split "," (rstrip line) in
  ty ← field hp values "type";
  if String.eqb ty (quoted "identifier_field") then field hp values "identifier"
  else None.

Definition can_data (hp : gmap string nat) (line : string) : option string :=
  let values := split "," (rstrip line) in
  ty ← field hp values "type";
  if String.eqb ty (quoted "identifier_field") then None
  else if String.eqb ty (quoted "data_field") then field hp values "data"
  else None.

(** The number of identifier-field rows that carry the identifier [s]. *)
Definition count_identifier (hp : gmap string nat) (s : string) (rows : list string) : nat :=
  length (List.filter (fun l => bool_decide (can_identifier hp l = Some s)) rows).

(** Appending a byte to the data of the last frame, if there is one. *)
Fixpoint add_to_last (d : string) (frames : list can_frame) : list can_frame :=
  match frames with
  | [] => []
  | [f] => [CanFrame (id f) (frame_data f ++ [d])%list]
  | f :: fs => f :: add_to_last d fs
  end.

(** The frames of a trace, row by row: an identifier-field row opens a
    frame with no data, a data-field row adds its byte to the frame
    opened last and is dropped when none was opened. *)
Fixpoint can_frames (hp : gmap string nat) (frames : list can_frame) (rows : list string)
    : list can_frame :=
  match rows with
  | [] => frames
  | l :: ls =>
      can_frames hp
        (match can_identifier hp l with
         | Some s => (frames ++ [CanFrame s []])%list
         | None =>
             match can_data hp l with
             | Some d => add_to_last d frames
             | None => frames
             end
         end) ls
  end.

(** The frames the grouper holds: the closed ones and the open one. *)
Definition can_held (st : can_state) : list can_frame :=
  (can_results st ++ (if identifier st then [temp_entry st] else []))%list.

Definition can_pos : gmap string nat :=
  header_positions (strip_char quote) (split "," "name,type,identifier,data") 0 ∅.

(** ** The I2C address scan: [I2C.print_results] with [--address] *)

Fixpoint prefix_of (p s : string) : bool :=
  match p, s with
  | EmptyString, _ => true
  | String a p', String b s' => Ascii.eqb a b && prefix_of p' s'
  | String _ _, EmptyString => false
  end.

(** [p in s] on strings: a case-sensitive substring test. *)
Fixpoint contains (p s : string) : bool :=
  prefix_of p s ||
  match s with
  | EmptyString => false
  | String _ s' => contains p s'
  end.

(** The [while] loop after a matching row: the rows that follow are
    printed as long as their type field is ["data"].  [None] is the
    [KeyError] of a header without a [type] column or the [IndexError] of
    a row that is too short. *)
Fixpoint data_run (hp : gmap string nat) (rest : list record) : option (list printed) :=
  match rest with
  | [] => Some []
  | r :: rest' =>
      i ← hp !! "type";
      ty ← val r !! i;
      if String.eqb ty (quoted "data")
      then tl ← data_run hp rest'; Some (PrintRow (val r) :: tl)
      else Some []
  end.

(** The loop over the result set.  Under an [address] column a matching
    row is printed with the data rows that follow it and an empty line;
    under an [Address] column a matching row is printed alone; the outer
    loop then goes on with the very next row in both cases. *)
Fixpoint i2c_rows (target : string) (hp : gmap string nat) (rs : list record)
    : option (list printed) :=
  match rs with
  | [] => Some []
  | r :: rest =>
      match hp !! "address" with
      | Some i =>
          f ← val r !! i;
          if contains target f then
            run ← data_run hp rest;
            tl ← i2c_rows target hp rest;
            Some (PrintRow (val r) :: run ++ PrintBlank :: tl)%list
          else i2c_rows target hp rest
      | None =>
          match hp !! "Address" with
          | Some i =>
              f ← val r !! i;
              tl ← i2c_rows target hp rest;
              Some (if contains target f then PrintRow (val r) :: tl else tl)
          | None => i2c_rows target hp rest
          end
      end
  end.

Definition is_blank (p : printed) : bool :=
  match p with
  | PrintBlank => true
  | PrintRow _ => false
  end.

Definition i2c_pos : gmap string nat :=
  base_header_pos (split "," "name,type,address,data").

Definition i2c_records : list record :=
  [Rec ["I2C"; quoted "address"; "0x5A"; EmptyString] None None;
   Rec ["I2C"; quoted "data"; EmptyString; "0x01"] None None;
   Rec ["I2C"; quoted "data"; EmptyString; "0x02"] None None;
   Rec ["I2C"; quoted "address"; "0x3C"; EmptyString] None None;
   Rec ["I2C"; quoted "data"; EmptyString; "0x03"] None None].

(** ** The binary files: [SPI.print_results] under [--binary] *)

(** The blanks [bytes.fromhex] skips between bytes. *)
Definition is_hex_blank (c : ascii) : bool :=
  let n := N_of_ascii c in
  ((9 <=? n)%N && (n <=? 13)%N) || (n =? 32)%N.

(** [bytes.fromhex(s)]: two hexadecimal digits per byte, blanks between
    bytes skipped; [None] is the [ValueError] of any other text. *)
Fixpoint fromhex (s : string) : option (list Z) :=
  match s with
  | EmptyString => Some []
  | String c s' =>
      if is_hex_blank c then fromhex s'
      else
        match hex_val c, s' with
        | Some hi, String d s'' =>
            match hex_val d with
            | Some lo => bs ← fromhex s''; Some (16 * hi + lo :: bs)
            | None => None
            end
        | _, _ => None
        end
  end.

(** The inner loop over [enumerate(entry['data'])] from index [i] on:
    [mem_map] is a list of [bytes] objects, one per address, and [seq]
    what was written to [seq_read.bin] so far.  [None] is a [ValueError]
    of [int] or [fromhex], or the [IndexError] of an offset at or beyond
    the end of [mem_map]. *)
Fixpoint write_bytes (addr : string) (i : nat) (bytes : list string)
    (mem : list (list Z)) (seq : list Z) : option (list (list Z) * list Z) :=
  match bytes with
  | [] => Some (mem, seq)
  | entry_byte :: rest =>
      a ← int16 addr;
      bs ← fromhex entry_byte;
      let addr_offset := Z.to_nat (a + Z.of_nat i) in
      if (addr_offset <? length mem)%nat
      then write_bytes addr (S i) rest (<[addr_offset := bs]> mem) (seq ++ bs)%list
      else None
  end.

Fixpoint write_entries (results : list transaction) (mem : list (list Z)) (seq : list Z)
    : option (list (list Z) * list Z) :=
  match results with
  | [] => Some (mem, seq)
  | e :: es =>
      '(mem', seq') ← write_bytes (address e) 0 (data e) mem seq;
      write_entries es mem' seq'
  end.

(** The contents of [seq_read.bin] and of [mem_map.bin]. *)
Definition binary_files (dev : device) (results : list transaction)
    : option (list Z * list Z) :=
  '(mem, seq) ← write_entries results (replicate (Z.to_nat (SIZE dev)) [0]) [];
  Some (seq, concat mem).

(** The byte a two-digit data entry stands for. *)
Definition byte_value (d : string) : Z := default 0 (int16 d).

Definition small_device : device := Device "03" "0B" "3B" "EB" 8.

(** A transaction the image has room for: two-digit data bytes and, when
    there are any, an address that reads as a number with the last byte
    still inside [size]. *)
Definition tx_fits (size : Z) (e : transaction) : bool :=
  forallb hex_byte (data e)
  && match data e with
     | [] => true
     | _ :: _ =>
         match int16 (address e) with
         | Some a => a + Z.of_nat (length (data e)) <=? size
         | None => false
         end
     end.

(** * Properties *)

(** ** The dual-read interleave *)

Lemma in_bytes_upto (n : nat) (x : Z) :
  0 <= x < Z.of_nat n -> In x (bytes_upto n).
Proof.
  intros Hx. unfold bytes_upto. apply in_map_iff.
  exists (Z.to_nat x). split; [lia|]. apply in_seq. lia.
Qed.

Lemma nibble_roundtrip_all :
  forallb (fun na => forallb (nibble_roundtrip_at na) (bytes_upto 16))
          (bytes_upto 16) = true.
Proof. vm_compute. reflexivity. Qed.

Lemma nibble_roundtrip (na nb : Z) :
  0 <= na < 16 -> 0 <= nb < 16 ->
  odd_bits (interleave na nb) = na /\ even_bits (interleave na nb) = nb.
Proof.
  intros Ha Hb.
  pose proof nibble_roundtrip_all as Hall.
  rewrite forallb_forall in Hall.
  specialize (Hall na (in_bytes_upto 16 na Ha)).
  rewrite forallb_forall in Hall.
  specialize (Hall nb (in_bytes_upto 16 nb Hb)).
  apply andb_true_iff in Hall as [H1 H2].
  split; lia.
Qed.

Lemma byte_nibbles_all : forallb byte_nibbles_at (bytes_upto 256) = true.
Proof. vm_compute. reflexivity. Qed.

Lemma byte_nibbles (a : Z) :
  0 <= a < 256 ->
  0 <= Z.shiftr (Z.land a 0xf0) 4 < 16 /\ 0 <= Z.land a 0x0f < 16
  /\ Z.lor (Z.shiftl (Z.shiftr (Z.land a 0xf0) 4) 4) (Z.land a 0x0f) = a.
Proof.
  intros Ha.
  pose proof byte_nibbles_all as Hall.
  rewrite forallb_forall in Hall.
  specialize (Hall a (in_bytes_upto 256 a Ha)).
  unfold byte_nibbles_at in Hall.
  repeat (apply andb_true_iff in Hall as [Hall ?]).
  lia.
Qed.

Lemma interleave_roundtrip (a b : Z) :
  0 <= a < 256 -> 0 <= b < 256 ->
  deinterleave_odd (upper_byte a b) (lower_byte a b) = a
  /\ deinterleave_even (upper_byte a b) (lower_byte a b) = b.
Proof.
  intros Ha Hb.
  destruct (byte_nibbles a Ha) as (Hua & Hla & Hja).
  destruct (byte_nibbles b Hb) as (Hub & Hlb & Hjb).
  unfold deinterleave_odd, deinterleave_even, upper_byte, lower_byte.
  destruct (nibble_roundtrip _ _ Hua Hub) as [-> ->].
  destruct (nibble_roundtrip _ _ Hla Hlb) as [-> ->].
  split; assumption.
Qed.

(** C7.  For all bytes [miso_val] and [mosi_val], the odd bit positions of
    the two bytes the dual read appends give [miso_val] back and the even
    positions give [mosi_val] back; hence two different input pairs never
    produce the same pair of output bytes. *)
Theorem dual_read_invertible (miso_val mosi_val miso_val' mosi_val' : Z) :
  0 <= miso_val < 256 -> 0 <= mosi_val < 256 ->
  0 <= miso_val' < 256 -> 0 <= mosi_val' < 256 ->
  (deinterleave_odd (upper_byte miso_val mosi_val) (lower_byte miso_val mosi_val)
     = miso_val
   /\ deinterleave_even (upper_byte miso_val mosi_val) (lower_byte miso_val mosi_val)
     = mosi_val)
  /\ (upper_byte miso_val mosi_val = upper_byte miso_val' mosi_val' ->
      lower_byte miso_val mosi_val = lower_byte miso_val' mosi_val' ->
      miso_val = miso_val' /\ mosi_val = mosi_val').
Proof.
  intros Ha Hb Ha' Hb'.
  destruct (interleave_roundtrip miso_val mosi_val Ha Hb) as [Ho He].
  destruct (interleave_roundtrip miso_val' mosi_val' Ha' Hb') as [Ho' He'].
  split; [split; assumption|].
  intros Hu Hl. rewrite Hu, Hl in Ho, He. split; congruence.
Qed.

Lemma dual_read_invertible_witness :
  (deinterleave_odd (upper_byte 0xF0 0x0F) (lower_byte 0xF0 0x0F) = 0xF0
   /\ deinterleave_even (upper_byte 0xF0 0x0F) (lower_byte 0xF0 0x0F) = 0x0F)
  /\ (upper_byte 0xF0 0x0F = upper_byte 0xF0 0x0F ->
      lower_byte 0xF0 0x0F = lower_byte 0xF0 0x0F ->
      0xF0 = 0xF0 /\ 0x0F = 0x0F).
Proof.
  apply (dual_read_invertible 0xF0 0x0F 0xF0 0x0F); lia.
Defined.

(** ** The S-record encoder on a short transaction *)

Lemma take_chunks_concat {A} (l : list A) (n m : nat) :
  concat (map (fun k => take n (drop (k * n) l)) (seq 0 m)) = take (m * n) l.
Proof.
  induction m as [|m IH].
  - reflexivity.
  - rewrite seq_S, map_app, concat_app, IH. simpl.
    rewrite app_nil_r, take_take_drop. f_equal. lia.
Qed.

Lemma ceil_cover (len n : nat) :
  n <> 0%nat -> (len <= (len + n - 1) / n * n)%nat.
Proof.
  intros Hn.
  pose proof (Nat.div_mod_eq (len + n - 1) n) as Hd.
  pose proof (Nat.mod_upper_bound (len + n - 1) n Hn) as Hm.
  nia.
Qed.

(** The slices of [divide_chunks] are at most [n] long and, put end to
    end, give the list back: on the path for more than 32 bytes every
    data byte lands in exactly one chunk. *)
Lemma divide_chunks_partition {A} (l : list A) (n : nat) (cs : list (list A)) :
  divide_chunks l n = Some cs ->
  concat cs = l /\ Forall (fun c => (length c <= n)%nat) cs.
Proof.
  unfold divide_chunks. destruct n as [|n]; [discriminate|].
  intros [= <-]. split.
  - rewrite take_chunks_concat. apply take_ge.
    apply (ceil_cover (length l) (S n)). lia.
  - apply List.Forall_forall. intros c Hc. apply in_map_iff in Hc as (k & <- & _).
    rewrite length_take. lia.
Qed.

(** C2, at the input that fails.  A transaction of two data bytes is not
    encoded as one line carrying both bytes: the loop runs over the two
    byte strings themselves, prints one line per byte, takes the length
    of the two-character string for the byte count, sums the digits
    instead of the bytes and advances the address by 32 in between. *)
Theorem srecord_two_bytes_two_lines :
  option_map (map render) (srecord_entry (Transaction "000102" ["AA"; "BB"]))
  = Some ["S206000102AAE2"; "S206000122BBC0"].
Proof. vm_compute. reflexivity. Qed.

(** ** The CAN grouper at the end of the stream *)

(** C3, at the input that fails.  Two identifier rows for 101, each
    followed by one data row: the tally reaches 2, but the result set
    holds the first frame only; the second frame, open when the stream
    ends, is not appended. *)
Theorem can_last_frame_dropped :
  exists tally,
    can_read_file can_trace = Some ([CanFrame "101" ["0xAA"]], tally)
    /\ tally !! "101" = Some 2%nat.
Proof.
  eexists. split; vm_compute; reflexivity.
Qed.

(** ** The context window at the end of the stream *)

(** C6, at the input that fails.  With room for two records after an
    anchor and a single record behind the last anchor, the anchor is left
    without the ['after'] key, and the listing that reads this key from
    every record ends in a [KeyError]. *)
Theorem last_anchor_lacks_after :
  read_file search_literal filter_cfg filter_trace
  = Some (["name"; "data"], [Rec ["x"; "0xA5"] (Some []) None])
  /\ print_results filter_cfg [Rec ["x"; "0xA5"] (Some []) None] = None.
Proof. split; vm_compute; reflexivity. Qed.

(** ** Hexadecimal text *)

Lemma hex_val_range c d : hex_val c = Some d -> 0 <= d < 16.
Proof.
  unfold hex_val. intros H.
  repeat match type of H with
  | (if ?b then _ else _) = _ => destruct b eqn:?
  end; inversion H; subst; lia.
Qed.

Lemma hex_val_digit d : 0 <= d < 16 -> hex_val (hex_digit d) = Some d.
Proof.
  intros Hd.
  assert (Hall : List.Forall (fun d => hex_val (hex_digit d) = Some d) (bytes_upto 16))
    by (vm_compute; repeat constructor).
  rewrite List.Forall_forall in Hall. apply Hall, in_bytes_upto. lia.
Qed.

Lemma hex_val_upper c : hex_val (upper_char c) = hex_val c.
Proof.
  destruct c as [[] [] [] [] [] [] [] []]; vm_compute; reflexivity.
Qed.

Lemma int16_nonempty s : s <> EmptyString -> int16 s = int16_go 0 s.
Proof. destruct s; [congruence | reflexivity]. Qed.

Lemma int16_go_app a s t :
  int16_go a (s +:+ t) = v ← int16_go a s; int16_go v t.
Proof.
  revert a. induction s as [|c s IH]; intros a; simpl; [reflexivity|].
  destruct (hex_val c); [apply IH | reflexivity].
Qed.

Lemma int16_go_nonneg s : forall a v, 0 <= a -> int16_go a s = Some v -> 0 <= v.
Proof.
  induction s as [|c s IH]; simpl; intros a v Ha H.
  - congruence.
  - destruct (hex_val c) as [d|] eqn:Hd; [|discriminate].
    apply hex_val_range in Hd. apply (IH (16 * a + d)); [lia | assumption].
Qed.

Lemma int16_nonneg s v : int16 s = Some v -> 0 <= v.
Proof.
  destruct s; [discriminate|]. apply int16_go_nonneg. lia.
Qed.

Lemma hexb_int16_go s : hexb s = true -> forall a, is_Some (int16_go a s).
Proof.
  induction s as [|c s IH]; simpl; intros H a; [eauto|].
  destruct (hex_val c); [apply IH; assumption | discriminate].
Qed.

Lemma hex_field_int16 s : hex_field s = true -> is_Some (int16 s).
Proof.
  destruct s; [discriminate|]. intros H. apply hexb_int16_go. exact H.
Qed.

Lemma hexb_app s t : hexb (s +:+ t) = hexb s && hexb t.
Proof.
  induction s as [|c s IH]; simpl; [reflexivity|].
  destruct (hex_val c); [apply IH | reflexivity].
Qed.

Lemma hexb_upper s : hexb (upper s) = hexb s.
Proof.
  induction s as [|c s IH]; simpl; [reflexivity|].
  rewrite hex_val_upper. destruct (hex_val c); [apply IH | reflexivity].
Qed.

Lemma int16_go_upper s : forall a, int16_go a (upper s) = int16_go a s.
Proof.
  induction s as [|c s IH]; simpl; intros a; [reflexivity|].
  rewrite hex_val_upper. destruct (hex_val c); [apply IH | reflexivity].
Qed.

Lemma upper_nonempty s : s <> EmptyString -> upper s <> EmptyString.
Proof. destruct s; [congruence | discriminate]. Qed.

Lemma int16_upper s : int16 (upper s) = int16 s.
Proof.
  destruct s; [reflexivity|]. apply (int16_go_upper (String a s)).
Qed.

Lemma hexb_repeat_zero n : hexb (repeat_char "0"%char n) = true.
Proof. induction n; simpl; [reflexivity | assumption]. Qed.

Lemma append_cons c (s t : string) : String c s +:+ t = String c (s +:+ t).
Proof. reflexivity. Qed.

Lemma append_assoc (s t u : string) : (s +:+ t) +:+ u = s +:+ (t +:+ u).
Proof.
  induction s as [|c s IH]; [reflexivity|].
  rewrite !append_cons, IH. reflexivity.
Qed.

Lemma append_length (s t : string) :
  String.length (s +:+ t) = (String.length s + String.length t)%nat.
Proof.
  induction s as [|c s IH]; [reflexivity|].
  rewrite append_cons. simpl. rewrite IH. reflexivity.
Qed.

(** The digits [hex_go] puts in front of the accumulator. *)
Lemma hex_go_acc f : forall n acc, hex_go f n acc = hex_go f n EmptyString +:+ acc.
Proof.
  induction f as [|f IH]; intros n acc; simpl; [reflexivity|].
  destruct (n / 16 =? 0); [reflexivity|].
  rewrite IH, (IH _ (String _ EmptyString)).
  rewrite append_assoc. reflexivity.
Qed.

Lemma hex_go_nonempty f n : hex_go (S f) n EmptyString <> EmptyString.
Proof.
  simpl. destruct (n / 16 =? 0); [discriminate|].
  rewrite hex_go_acc. destruct (hex_go f (n / 16) EmptyString); discriminate.
Qed.

Lemma hexb_hex_go f : forall n, 0 <= n -> hexb (hex_go f n EmptyString) = true.
Proof.
  induction f as [|f IH]; intros n Hn; simpl; [reflexivity|].
  assert (Hd : hex_val (hex_digit (n mod 16)) = Some (n mod 16))
    by (apply hex_val_digit, Z.mod_pos_bound; lia).
  destruct (n / 16 =? 0).
  - simpl. rewrite Hd. reflexivity.
  - rewrite hex_go_acc, hexb_app, IH by (apply Z.div_pos; lia).
    simpl. rewrite Hd. reflexivity.
Qed.

(** With enough fuel the digits read back as the number. *)
Lemma int16_go_hex_go f : forall n a,
  0 <= n < 16 ^ Z.of_nat (S f) ->
  exists k, 0 <= k /\
    int16_go a (hex_go (S f) n EmptyString) = Some (a * 16 ^ k + n).
Proof.
  induction f as [|f IH]; intros n a Hn.
  - exists 1. split; [lia|]. simpl.
    change (16 ^ Z.of_nat 1) with 16 in Hn.
    rewrite (Z.div_small n 16), (Z.mod_small n 16) by lia. simpl.
    rewrite hex_val_digit by lia. f_equal. lia.
  - change (hex_go (S (S f)) n EmptyString) with
      (let acc' := String (hex_digit (n mod 16)) EmptyString in
       if n / 16 =? 0 then acc' else hex_go (S f) (n / 16) acc').
    cbv zeta.
    assert (Hd : hex_val (hex_digit (n mod 16)) = Some (n mod 16))
      by (apply hex_val_digit, Z.mod_pos_bound; lia).
    destruct (n / 16 =? 0) eqn:Hq.
    + exists 1. split; [lia|]. simpl. rewrite Hd. f_equal.
      apply Z.eqb_eq in Hq. pose proof (Z.div_mod n 16). lia.
    + assert (Hn' : 0 <= n / 16 < 16 ^ Z.of_nat (S f)).
      { split; [apply Z.div_pos; lia|].
        apply Z.div_lt_upper_bound; [lia|].
        replace (Z.of_nat (S (S f))) with (Z.of_nat (S f) + 1) in Hn by lia.
        rewrite Z.pow_add_r in Hn by lia. lia. }
      destruct (IH (n / 16) a Hn') as (k & Hk & Hgo).
      exists (k + 1). split; [lia|].
      rewrite hex_go_acc, int16_go_app, Hgo. simpl. rewrite Hd. f_equal.
      rewrite Z.pow_add_r by lia. pose proof (Z.div_mod n 16). lia.
Qed.

Lemma hex_fuel n : 0 <= n -> n < 16 ^ Z.of_nat (S (Z.to_nat (Z.log2 n))).
Proof.
  intros Hn.
  destruct (Z.eq_dec n 0) as [->|Hz]; [reflexivity|].
  pose proof (Z.log2_nonneg n) as Hl.
  replace (Z.of_nat (S (Z.to_nat (Z.log2 n)))) with (Z.succ (Z.log2 n)) by lia.
  destruct (Z.log2_spec n) as [_ Hlt]; [lia|].
  eapply Z.lt_le_trans; [exact Hlt|].
  apply Z.pow_le_mono_l. lia.
Qed.

Lemma hex_str_nonempty n : hex_str n <> EmptyString.
Proof. apply hex_go_nonempty. Qed.

Lemma hexb_hex_str n : 0 <= n -> hexb (hex_str n) = true.
Proof. apply hexb_hex_go. Qed.

(** [int(hex(n), 16) == n]. *)
Lemma int16_hex_str n : 0 <= n -> int16 (hex_str n) = Some n.
Proof.
  intros Hn. rewrite int16_nonempty by apply hex_str_nonempty.
  destruct (int16_go_hex_go (Z.to_nat (Z.log2 n)) n 0) as (k & _ & H).
  - split; [assumption | apply hex_fuel; assumption].
  - exact H.
Qed.

Lemma drop_str_app (p t : string) : drop_str (String.length p) (p +:+ t) = t.
Proof.
  induction p as [|c p IH]; [destruct t; reflexivity|]. exact IH.
Qed.

Lemma last2_app2 (p : string) (a b : ascii) :
  last2 (p +:+ String a (String b EmptyString)) = String a (String b EmptyString).
Proof.
  unfold last2. rewrite append_length. simpl String.length.
  replace (String.length p + 2 - 2)%nat with (String.length p) by lia.
  apply drop_str_app.
Qed.

(** From 16 on, [hex] ends in the two digits of the low byte. *)
Lemma hex_go_low_digits f n :
  16 <= n < 16 ^ Z.of_nat (S f) ->
  exists p, hex_go (S f) n EmptyString
            = p +:+ String (hex_digit ((n / 16) mod 16))
                      (String (hex_digit (n mod 16)) EmptyString).
Proof.
  intros Hn.
  assert (Hq : (n / 16 =? 0) = false).
  { apply Z.eqb_neq. pose proof (Z.div_le_lower_bound n 16 1). lia. }
  destruct f as [|f].
  { change (16 ^ Z.of_nat 1) with 16 in Hn. lia. }
  change (hex_go (S (S f)) n EmptyString) with
    (let acc' := String (hex_digit (n mod 16)) EmptyString in
     if n / 16 =? 0 then acc' else hex_go (S f) (n / 16) acc').
  cbv zeta. rewrite Hq. simpl hex_go.
  destruct (n / 16 / 16 =? 0).
  - exists EmptyString. reflexivity.
  - rewrite hex_go_acc. eexists. reflexivity.
Qed.

(** [int(hex(n)[-2:], 16)] is the low byte of [n]. *)
Lemma int16_last2_hex_str n : 0 <= n -> int16 (last2 (hex_str n)) = Some (n mod 256).
Proof.
  intros Hn. destruct (Z.lt_ge_cases n 16) as [Hs|Hb].
  - unfold hex_str. simpl hex_go. rewrite (Z.div_small n 16) by lia. simpl.
    rewrite hex_val_digit by (apply Z.mod_pos_bound; lia).
    rewrite (Z.mod_small n 16), (Z.mod_small n 256) by lia. reflexivity.
  - destruct (hex_go_low_digits (Z.to_nat (Z.log2 n)) n) as (p & Hp).
    { split; [assumption | apply hex_fuel; assumption]. }
    unfold hex_str. rewrite Hp, last2_app2. simpl.
    rewrite !hex_val_digit by (apply Z.mod_pos_bound; lia).
    f_equal.
    pose proof (Z.div_mod n 16). pose proof (Z.div_mod (n / 16) 16).
    pose proof (Z.div_mod n 256). pose proof (Z.mod_pos_bound n 16).
    pose proof (Z.mod_pos_bound (n / 16) 16). pose proof (Z.mod_pos_bound n 256).
    rewrite Z.div_div in * by lia. change (16 * 16) with 256 in *. lia.
Qed.

(** Exclusive or with [0xff] is the one's complement of a byte. *)
Lemma lxor_ff x : 0 <= x < 256 -> Z.lxor x 255 = 255 - x.
Proof.
  intros Hx.
  assert (Hall : List.Forall (fun x => Z.lxor x 255 = 255 - x) (bytes_upto 256))
    by (vm_compute; repeat constructor).
  rewrite List.Forall_forall in Hall. apply Hall, in_bytes_upto. lia.
Qed.

Lemma int16_zero_prefix s : s <> EmptyString -> int16 ("0" +:+ s) = int16 s.
Proof. destruct s; [congruence | reflexivity]. Qed.

Lemma hex_field_nonempty s : hex_field s = true -> s <> EmptyString /\ hexb s = true.
Proof. destruct s; [discriminate|]. intros H. split; [discriminate | exact H]. Qed.

Lemma hex_field_intro s : s <> EmptyString -> hexb s = true -> hex_field s = true.
Proof. destruct s; [congruence|]. intros _ H. exact H. Qed.

Lemma sum_int16_pairs s : hexb s = true -> is_Some (sum_int16 (pairs s)).
Proof.
  revert s.
  enough (H : forall n s, (String.length s <= n)%nat -> hexb s = true ->
                          is_Some (sum_int16 (pairs s)))
    by (intros s; apply (H (String.length s)); lia).
  induction n as [|n IH]; intros s Hl Hh.
  - destruct s; [simpl; eauto | simpl in Hl; lia].
  - destruct s as [|a [|b r]]; simpl in *.
    + eauto.
    + destruct (hex_val a); [eauto | discriminate].
    + destruct (hex_val a) as [da|]; [|discriminate].
      destruct (hex_val b) as [db|]; [|discriminate].
      destruct (IH r) as [t Ht]; [lia | assumption |].
      rewrite Ht. eauto.
Qed.

Lemma sum_int16_fields bs :
  List.Forall (fun b => hex_field b = true) bs -> is_Some (sum_int16 bs).
Proof.
  induction 1 as [|b bs Hb _ [t Ht]]; simpl; [eauto|].
  destruct (hex_field_int16 b Hb) as [v Hv]. rewrite Hv, Ht. eauto.
Qed.

Lemma sum_int16_nonneg bs t : sum_int16 bs = Some t -> 0 <= t.
Proof.
  revert t. induction bs as [|b bs IH]; simpl; intros t H.
  - inversion H. lia.
  - destruct (int16 b) as [v|] eqn:Hv; [|discriminate].
    destruct (sum_int16 bs) as [t'|]; [|discriminate].
    inversion H. apply int16_nonneg in Hv. specialize (IH t' eq_refl). lia.
Qed.

(** ** The S-record checksum *)

Lemma byte_count_value (n : Z) :
  0 <= n ->
  int16 (if n <=? 15 then "0" +:+ hex_str n else hex_str n) = Some n.
Proof.
  intros Hn. destruct (n <=? 15).
  - rewrite int16_zero_prefix by apply hex_str_nonempty. apply int16_hex_str, Hn.
  - apply int16_hex_str, Hn.
Qed.

Lemma checksum_value (m : Z) :
  0 <= m < 256 ->
  int16 (let cs := upper (hex_str (Z.lxor m 255)) in
         if (String.length cs =? 1)%nat then "0" +:+ cs else cs)
  = Some (255 - m).
Proof.
  intros Hm. cbv zeta. rewrite lxor_ff by assumption.
  assert (Hu : int16 (upper (hex_str (255 - m))) = Some (255 - m))
    by (rewrite int16_upper; apply int16_hex_str; lia).
  destruct (String.length _ =? 1)%nat; [|exact Hu].
  rewrite int16_zero_prefix; [exact Hu|].
  apply upper_nonempty, hex_str_nonempty.
Qed.

Lemma next_address_hex (a : Z) :
  0 <= a -> hex_field (upper (format_06x (a + Z.of_nat SRECORD_DATA_SIZE))) = true.
Proof.
  intros Ha. apply hex_field_intro.
  - apply upper_nonempty. unfold format_06x.
    destruct (repeat_char _ _); [apply hex_str_nonempty | discriminate].
  - rewrite hexb_upper. unfold format_06x.
    rewrite hexb_app, hexb_repeat_zero, hexb_hex_str; [reflexivity | lia].
Qed.

(** One pass of the chunk loop on hexadecimal input: it prints a line
    whose bytes add up to 255 modulo 256, and leaves a hexadecimal
    address for the next pass. *)
Lemma encode_chunk_sum (addr : string) (c : list string) :
  hex_field addr = true ->
  List.Forall (fun b => hex_field b = true) c ->
  exists l addr',
    encode_chunk addr c = Some (l, addr')
    /\ hex_field addr' = true
    /\ line_address l = addr /\ chunk l = c
    /\ exists s, line_sum l = Some s /\ s mod 256 = 255.
Proof.
  intros Ha Hc.
  destruct (hex_field_nonempty addr Ha) as [Hne Hhex].
  destruct (sum_int16_pairs addr Hhex) as [ta Hta].
  destruct (sum_int16_fields c Hc) as [tc Htc].
  destruct (hex_field_int16 addr Ha) as [a Hav].
  pose proof (sum_int16_nonneg _ _ Hta) as Hta0.
  pose proof (sum_int16_nonneg _ _ Htc) as Htc0.
  pose proof (int16_nonneg _ _ Hav) as Ha0.
  set (n := Z.of_nat (length c + address_size + checksum_size)).
  assert (Hn : 0 <= n) by lia.
  set (m := (n + (ta + tc)) mod 256).
  assert (Hm : 0 <= m < 256) by (apply Z.mod_pos_bound; lia).
  unfold encode_chunk. fold n. rewrite Hta, Htc. simpl mbind.
  rewrite (byte_count_value n Hn). simpl mbind.
  rewrite int16_last2_hex_str by lia. simpl mbind. fold m.
  rewrite Hav. simpl mbind.
  eexists _, _. split; [reflexivity|].
  split; [apply next_address_hex, Ha0|].
  split; [reflexivity|]. split; [reflexivity|].
  unfold line_sum. simpl byte_count. simpl line_address. simpl chunk. simpl checksum.
  rewrite (byte_count_value n Hn). simpl mbind. rewrite Hta. simpl mbind.
  rewrite Htc. simpl mbind.
  pose proof (checksum_value m Hm) as Hck. cbv zeta in Hck. rewrite Hck. simpl mbind.
  eexists. split; [reflexivity|].
  unfold m.
  pose proof (Z.div_mod (n + (ta + tc)) 256).
  replace (n + ta + tc + (255 - (n + (ta + tc)) mod 256))
    with (255 + (n + (ta + tc)) / 256 * 256) by lia.
  rewrite Z.mod_add by lia. reflexivity.
Qed.

Lemma encode_chunks_sum (cs : list (list string)) : forall addr,
  hex_field addr = true ->
  List.Forall (List.Forall (fun b => hex_field b = true)) cs ->
  exists ls,
    encode_chunks addr cs = Some ls
    /\ map chunk ls = cs
    /\ List.Forall (fun l => exists s, line_sum l = Some s /\ s mod 256 = 255) ls.
Proof.
  induction cs as [|c cs IH]; intros addr Ha Hcs.
  - exists []. repeat split. constructor.
  - inversion Hcs as [|? ? Hc Hcs']; subst.
    destruct (encode_chunk_sum addr c Ha Hc) as (l & addr' & He & Ha' & _ & Hch & Hs).
    destruct (IH addr' Ha' Hcs') as (ls & Hls & Hmap & Hall).
    exists (l :: ls). simpl. rewrite He. simpl. rewrite Hls. simpl.
    split; [reflexivity|]. split; [rewrite Hch, Hmap; reflexivity|].
    constructor; assumption.
Qed.

Lemma divide_chunks_fields (P : string -> Prop) (l : list string) (n : nat) cs :
  List.Forall P l -> divide_chunks l n = Some cs -> List.Forall (List.Forall P) cs.
Proof.
  intros Hl. unfold divide_chunks. destruct n as [|n]; [discriminate|].
  intros [= <-]. apply List.Forall_forall. intros c Hc.
  apply in_map_iff in Hc as (k & <- & _).
  apply Forall_take, Forall_drop, Hl.
Qed.

(** C1, as the code has it.  For a transaction of more than 32 data
    bytes whose address and data bytes are hexadecimal text, every line
    the encoder prints satisfies: byte count + address bytes + chunk data
    bytes + checksum byte is congruent to 255 modulo 256 (the checksum is
    the one's complement of the low byte of the sum), and the chunks of
    the lines are the transaction's data in order. *)
Theorem srecord_checksum_complement (e : transaction) :
  (SRECORD_DATA_SIZE < length (data e))%nat ->
  hex_field (address e) = true ->
  List.Forall (fun b => hex_field b = true) (data e) ->
  exists ls,
    srecord_entry e = Some ls
    /\ concat (map chunk ls) = data e
    /\ List.Forall (fun l => exists s, line_sum l = Some s /\ s mod 256 = 255) ls.
Proof.
  intros Hlen Ha Hd. unfold srecord_entry, data_chunks.
  destruct (Nat.ltb_spec SRECORD_DATA_SIZE (length (data e))) as [_|Hle]; [|lia].
  destruct (divide_chunks (data e) SRECORD_DATA_SIZE) as [cs|] eqn:Hcs;
    [|discriminate Hcs].
  simpl mbind.
  destruct (encode_chunks_sum cs (address e) Ha) as (ls & Hls & Hmap & Hall).
  { eapply divide_chunks_fields; eassumption. }
  exists ls. split; [exact Hls|]. split; [|exact Hall].
  rewrite Hmap. apply (divide_chunks_partition _ _ _ Hcs).
Qed.

Lemma srecord_checksum_complement_witness :
  exists ls,
    srecord_entry transaction33 = Some ls
    /\ concat (map chunk ls) = data transaction33
    /\ List.Forall (fun l => exists s, line_sum l = Some s /\ s mod 256 = 255) ls.
Proof.
  apply (srecord_checksum_complement transaction33).
  - vm_compute. lia.
  - reflexivity.
  - vm_compute. repeat constructor.
Defined.

(** C1 as stated fails: on the 33-byte transaction at address 000000 the
    first line is [S224000000] + 32 times [00] + [DB], and
    0x24 + 0 + 0 + 0xDB = 255, which is not 0 modulo 256. *)
Lemma srecord_checksum_sum_not_zero :
  exists l ls s,
    srecord_entry transaction33 = Some (l :: ls)
    /\ render l = "S2240000000000000000000000000000000000000000000000000000000000000000000000DB"
    /\ line_sum l = Some s
    /\ s mod 256 <> 0.
Proof.
  eexists _, _, _. split; [vm_compute; reflexivity|].
  split; [vm_compute; reflexivity|].
  split; [vm_compute; reflexivity|].
  vm_compute. discriminate.
Qed.

(** ** The SPI reconstructor *)



Lemma spi_line_no_miso_column dev headers hp st l :
  "miso" ∉ headers -> "MISO" ∉ headers ->
  command_found st = None -> spi_results st = [] ->
  match spi_line dev headers hp st l with
  | Continue st' | Return st' => spi_results st' = [] /\ command_found st' = None
  | Raise => True
  end.
Proof.
  intros Hm HM Hc Hr.
  unfold spi_line. destruct (row_values hp l) as [values|]; [|tauto].
  destruct (decide ("type" ∈ headers)) as [Ht|Ht].
  - unfold typed_row. destruct (field hp values "type") as [ty|]; [|exact I].
    destruct (String.eqb ty (quoted "disable")).
    + rewrite Hc. simpl. tauto.
    + destruct (String.eqb ty (quoted "result")).
      * destruct (decide ("miso" ∈ headers)); [contradiction | tauto].
      * tauto.
  - unfold untyped_row.
    destruct (decide ("miso" ∈ headers)); [contradiction|].
    destruct (decide ("MISO" ∈ headers)); [contradiction | tauto].
Qed.

(** Without a [miso] and a [MISO] column nothing is ever appended: the
    first well-formed row that carries data ends the function, and the
    rows before it leave the state as it was. *)
Lemma spi_no_miso_column dev headers hp lines : forall st,
  "miso" ∉ headers -> "MISO" ∉ headers ->
  command_found st = None -> spi_results st = [] ->
  match spi_lines dev headers hp st lines with
  | Continue st' | Return st' => spi_results st' = [] /\ command_found st' = None
  | Raise => True
  end.
Proof.
  induction lines as [|l ls IH]; intros st Hm HM Hc Hr; simpl; [tauto|].
  pose proof (spi_line_no_miso_column dev headers hp st l Hm HM Hc Hr) as Hl.
  destruct (spi_line dev headers hp st l) as [st'| |]; [|assumption..].
  apply IH; tauto.
Qed.

(** C8, at the input that fails.  With a [type] column only the
    lower-case name [miso] is looked for: a header that has [MOSI] and
    [MISO] makes the function return at the first ["result"] row, under
    the message that neither 'miso' nor 'MISO' was found, while the same
    columns without a [type] column are read. *)
Theorem spi_typed_upper_case_halts :
  "MISO" ∈ spi_headers "name,type,start_time,duration,MOSI,MISO"
  /\ spi_read_file (select_device None) typed_upper_case_trace = Return spi_init
  /\ spi_read_file (select_device None) untyped_upper_case_trace
     = Continue (SpiState [] (Some "03") 1 EmptyString 0 []).
Proof.
  split; [vm_compute; set_solver|].
  split; vm_compute; reflexivity.
Qed.

(** A cycle of an active command changes the buffers and the cycle count
    only. *)
Lemma cycle_keeps dev cmd st mo mi st' :
  cycle dev cmd st mo mi = Continue st' ->
  command_found st' = command_found st /\ res_count st' = res_count st
  /\ spi_results st' = spi_results st.
Proof.
  unfold cycle. intros H.
  repeat match type of H with
  | (if ?b then _ else _) = _ => destruct b
  | match ?o with Some _ => _ | None => _ end = _ => destruct o
  end; inversion H; subst; simpl; auto.
Qed.

Lemma cycle_no_return dev cmd st mo mi st' :
  cycle dev cmd st mo mi <> Return st'.
Proof.
  unfold cycle.
  repeat match goal with
  | |- context [if ?b then _ else _] => destruct b
  | |- context [match ?o with Some _ => _ | None => _ end] => destruct o
  end; discriminate.
Qed.

Lemma typed_result_res_count dev st mo mi st' acc :
  res_count_inv st acc ->
  typed_result dev st mo mi = Continue st' ->
  res_count_inv st' (acc + 1).
Proof.
  unfold res_count_inv, typed_result. intros Hinv H.
  destruct (command_found st) as [cmd|] eqn:Hc.
  - apply cycle_keeps in H as (-> & -> & _). rewrite Hc. exact Hinv.
  - repeat match type of H with
    | (if ?b then _ else _) = _ => destruct b eqn:?
    end; inversion H; subst; simpl;
    try (match goal with
         | Hb : _ && (res_count st =? 0) = true |- _ =>
             apply andb_true_iff in Hb as [_ Hb]; apply Z.eqb_eq in Hb
         end; assumption).
    reflexivity.
Qed.

Lemma typed_line_res_count dev headers hp st l st' acc :
  "type" ∈ headers ->
  res_count_inv st acc ->
  spi_line dev headers hp st l = Continue st' ->
  res_count_inv st' (since_disable_step hp acc l).
Proof.
  intros Ht Hinv. unfold spi_line, since_disable_step.
  destruct (row_values hp l) as [values|]; [|intros [= <-]; exact Hinv].
  destruct (decide ("type" ∈ headers)); [|contradiction].
  unfold typed_row. destruct (field hp values "type") as [ty|]; [|discriminate].
  destruct (String.eqb ty (quoted "disable")).
  - destruct (command_found st) eqn:Hc; intros [= <-];
      unfold res_count_inv; reflexivity.
  - destruct (String.eqb ty (quoted "result")).
    + destruct (decide ("miso" ∈ headers)); [|discriminate].
      destruct (field hp values "mosi"); [|discriminate].
      destruct (field hp values "miso"); [|discriminate].
      apply typed_result_res_count, Hinv.
    + intros [= <-]. exact Hinv.
Qed.

Lemma typed_lines_res_count dev headers hp lines : forall st st' acc,
  "type" ∈ headers ->
  res_count_inv st acc ->
  spi_lines dev headers hp st lines = Continue st' ->
  res_count_inv st' (results_since_disable hp acc lines).
Proof.
  induction lines as [|l ls IH]; intros st st' acc Ht Hinv; simpl.
  - intros [= <-]. exact Hinv.
  - destruct (spi_line dev headers hp st l) as [st1| |] eqn:Hl; try discriminate.
    apply IH; [assumption|]. eapply typed_line_res_count; eassumption.
Qed.


(** C10.  In the parser for exports with a [type] column, when no command
    is active [res_count] is the number of ["result"] rows read since the
    last ["disable"] row (or the start), and a ["result"] row makes a
    command active exactly when its command-line byte is one of the four
    opcodes and [res_count] is 0; otherwise the row is only counted. *)
Theorem typed_opcode_needs_res_count_zero dev headers hp lines st line values mo mi :
  "type" ∈ headers -> "miso" ∈ headers ->
  spi_lines dev headers hp spi_init lines = Continue st ->
  command_found st = None ->
  row_values hp line = Some values ->
  field hp values "type" = Some (quoted "result") ->
  field hp values "mosi" = Some mo ->
  field hp values "miso" = Some mi ->
  res_count st = results_since_disable hp 0 lines
  /\ exists st',
       spi_line dev headers hp st line = Continue st'
       /\ spi_results st' = spi_results st
       /\ if (res_count st =? 0) && is_opcode dev (remove_0x mo)
          then command_found st' = Some (remove_0x mo) /\ res_count st' = 0
          else command_found st' = None /\ res_count st' = res_count st + 1.
Proof.
  intros Ht Hm Hrun Hc Hv Hty Hmo Hmi. split.
  - pose proof (typed_lines_res_count dev headers hp lines spi_init st 0 Ht eq_refl Hrun)
      as Hinv.
    unfold res_count_inv in Hinv. rewrite Hc in Hinv. exact Hinv.
  - unfold spi_line. rewrite Hv.
    destruct (decide ("type" ∈ headers)); [|contradiction].
    unfold typed_row. rewrite Hty. simpl String.eqb.
    destruct (decide ("miso" ∈ headers)); [|contradiction].
    rewrite Hmo, Hmi. unfold typed_result. rewrite Hc.
    unfold is_opcode.
    destruct (res_count st =? 0) eqn:Hz; rewrite ?andb_true_r, ?andb_false_r.
    + apply Z.eqb_eq in Hz. simpl andb.
      destruct (String.eqb (remove_0x mo) (READ dev)) eqn:H1.
      { apply String.eqb_eq in H1. eexists. split; [reflexivity|].
        simpl. rewrite H1. auto. }
      destruct (String.eqb (remove_0x mo) (FAST_READ dev)) eqn:H2.
      { apply String.eqb_eq in H2. eexists. split; [reflexivity|].
        simpl. rewrite H2. auto. }
      destruct (String.eqb (remove_0x mo) (FAST_DUAL_READ dev)) eqn:H3.
      { apply String.eqb_eq in H3. eexists. split; [reflexivity|].
        simpl. rewrite H3. auto. }
      destruct (String.eqb (remove_0x mo) (FAST_QUAD_READ dev)) eqn:H4.
      { apply String.eqb_eq in H4. eexists. split; [reflexivity|].
        simpl. rewrite H4. auto. }
      eexists. split; [reflexivity|]. simpl. auto.
    + simpl andb. eexists. split; [reflexivity|]. simpl. auto.
Qed.

Lemma typed_opcode_needs_res_count_zero_witness :
  res_count (SpiState [] None 0 EmptyString 1 [])
  = results_since_disable typed_pos 0 [result_row "0x00" "0xFF"]
  /\ exists st',
       spi_line (select_device None) typed_headers typed_pos
         (SpiState [] None 0 EmptyString 1 []) (result_row "0x03" "0xFF") = Continue st'
       /\ spi_results st' = spi_results (SpiState [] None 0 EmptyString 1 [])
       /\ if (res_count (SpiState [] None 0 EmptyString 1 []) =? 0)
             && is_opcode (select_device None) (remove_0x "0x03")
          then command_found st' = Some (remove_0x "0x03") /\ res_count st' = 0
          else command_found st' = None
               /\ res_count st' = res_count (SpiState [] None 0 EmptyString 1 []) + 1.
Proof.
  apply (typed_opcode_needs_res_count_zero (select_device None) typed_headers typed_pos
           [result_row "0x00" "0xFF"] (SpiState [] None 0 EmptyString 1 [])
           (result_row "0x03" "0xFF")
           ["0.0"; quoted "SPI"; quoted "result"; "0x03"; "0xFF"] "0x03" "0xFF").
  - vm_compute. repeat constructor.
  - vm_compute. repeat constructor.
  - vm_compute. reflexivity.
  - reflexivity.
  - vm_compute. reflexivity.
  - vm_compute. reflexivity.
  - vm_compute. reflexivity.
  - vm_compute. reflexivity.
Defined.

(** ** Closing a transaction without a [type] column *)

(** C5, as the code has it.  Without a [type] column a transaction in
    progress is closed and appended exactly when the cycle count exceeds
    4 and the command-line byte is one of the four opcodes, the opcode of
    the transaction itself included; the byte then starts a new
    transaction with the count at 1.  In every other case the row is a
    cycle of the transaction in progress, which leaves the result set
    and the active command as they are; only the hexadecimal reading of a
    dual-read data cycle can raise. *)
Theorem untyped_close_on_any_opcode dev st cmd mosi_val miso_val :
  command_found st = Some cmd ->
  match untyped_cycle dev st mosi_val miso_val with
  | Continue st' =>
      if (4 <? count st) && is_opcode dev mosi_val
      then st' = SpiState [] (Some mosi_val) 1 EmptyString (res_count st)
                   (spi_results st ++ [Transaction (cur_address st) (data_buf st)])%list
      else spi_results st' = spi_results st /\ command_found st' = Some cmd
  | Return _ => False
  | Raise => (4 <? count st) && is_opcode dev mosi_val = false
  end.
Proof.
  intros Hc. unfold untyped_cycle. rewrite Hc.
  destruct ((4 <? count st) && is_opcode dev mosi_val) eqn:Hclose.
  - apply andb_true_iff in Hclose as [_ Hop]. simpl command_found.
    unfold is_opcode in Hop.
    destruct (String.eqb mosi_val (READ dev)) eqn:H1.
    { apply String.eqb_eq in H1. simpl. rewrite <- H1. reflexivity. }
    destruct (String.eqb mosi_val (FAST_READ dev)) eqn:H2.
    { apply String.eqb_eq in H2. simpl. rewrite <- H2. reflexivity. }
    destruct (String.eqb mosi_val (FAST_DUAL_READ dev)) eqn:H3.
    { apply String.eqb_eq in H3. simpl. rewrite <- H3. reflexivity. }
    destruct (String.eqb mosi_val (FAST_QUAD_READ dev)) eqn:H4.
    { apply String.eqb_eq in H4. simpl. rewrite <- H4. reflexivity. }
    discriminate Hop.
  - rewrite Hc.
    destruct (cycle dev cmd st mosi_val miso_val) as [st'| st'|] eqn:Hcy.
    + apply cycle_keeps in Hcy as (-> & _ & ->). auto.
    + exact (cycle_no_return _ _ _ _ _ _ Hcy).
    + reflexivity.
Qed.

Lemma untyped_close_on_any_opcode_witness :
  match untyped_cycle (select_device None)
          (SpiState ["AA"] (Some "03") 5 "000102" 0 []) "03" "BB" with
  | Continue st' =>
      if (4 <? count (SpiState ["AA"] (Some "03") 5 "000102" 0 []))
         && is_opcode (select_device None) "03"
      then st' = SpiState [] (Some "03") 1 EmptyString
                   (res_count (SpiState ["AA"] (Some "03") 5 "000102" 0 []))
                   (spi_results (SpiState ["AA"] (Some "03") 5 "000102" 0 [])
                    ++ [Transaction (cur_address (SpiState ["AA"] (Some "03") 5 "000102" 0 []))
                          (data_buf (SpiState ["AA"] (Some "03") 5 "000102" 0 []))])%list
      else spi_results st' = spi_results (SpiState ["AA"] (Some "03") 5 "000102" 0 [])
           /\ command_found st' = Some "03"
  | Return _ => False
  | Raise => (4 <? count (SpiState ["AA"] (Some "03") 5 "000102" 0 []))
             && is_opcode (select_device None) "03" = false
  end.
Proof.
  apply (untyped_close_on_any_opcode (select_device None)
           (SpiState ["AA"] (Some "03") 5 "000102" 0 []) "03" "03" "BB").
  reflexivity.
Defined.

(** C5 as stated fails: during a plain read (opcode 03), after the three
    address cycles and one data cycle, a row whose command-line byte is
    03 again closes the transaction and starts a new one. *)
Lemma untyped_same_opcode_closes :
  spi_read_file (select_device None) read_then_same_opcode
  = Continue (SpiState ["AA"] (Some "03") 5 "000102" 0 [])
  /\ spi_read_file (select_device None) (read_then_same_opcode ++ [cycle_row "0x03" "0xBB"])
     = Continue (SpiState [] (Some "03") 1 EmptyString 0 [Transaction "000102" ["AA"]]).
Proof. split; vm_compute; reflexivity. Qed.

(** ** The length of the address of a closed transaction *)

















(** With a [type] column the fast read and the dual read start their
    count at 0, not at 1 as the plain read does: the fourth cycle after
    the opcode, the dummy one, still goes to the address and the first
    data cycle is skipped in its place. *)
Lemma typed_fast_read_four_address_cycles :
  spi_outcome (spi_read_file (select_device None) typed_fast_read_trace)
  = Some [Transaction "00010200" []]
  /\ spi_outcome (spi_read_file (select_device None)
                    ("Time [s],Packet ID,MOSI,MISO"
                     :: fast_read_rows ++ [cycle_row "0x03" "0xFF"]))
     = Some [Transaction "000102" ["AA"]].
Proof. split; vm_compute; reflexivity. Qed.

(** ** The newline repair of the base reader *)




Lemma read_lines_unfiltered re cfg rows : forall st,
  active_filter cfg = None ->
  exists st',
    read_lines re cfg st rows = Some st'
    /\ results st' = (results st ++ raw_records rows)%list.
Proof.
  induction rows as [|l ls IH]; intros st Hf; simpl.
  - exists st. rewrite app_nil_r. auto.
  - unfold read_line. rewrite Hf. simpl mbind.
    destruct (IH (ReaderState (before_buffer st) (after_buffer st)
                    (results st ++ [Rec (split "," (rstrip l)) None None])%list) Hf)
      as (st' & Hrun & Hres).
    exists st'. split; [exact Hrun|]. rewrite Hres. simpl.
    rewrite <- app_assoc. reflexivity.
Qed.




(** * Further properties of the code *)

(** ** [divide_chunks] *)

Lemma ceil_tight (len n : nat) :
  n <> 0%nat -> len <> 0%nat -> (((len + n - 1) / n - 1) * n < len)%nat.
Proof.
  intros Hn Hl.
  pose proof (Nat.div_mod_eq (len + n - 1) n) as Hd.
  pose proof (Nat.mod_upper_bound (len + n - 1) n Hn) as Hm.
  nia.
Qed.

Lemma ceil_zero (n : nat) : n <> 0%nat -> ((0 + n - 1) / n = 0)%nat.
Proof. intros Hn. apply Nat.div_small. lia. Qed.

(** X1.  For a non-zero size [n], [divide_chunks] cuts [l] into
    ceil(len/n) slices which, put end to end, give [l] back; every slice
    but the last has exactly [n] elements and the last has between 1 and
    [n]. *)
Theorem divide_chunks_shape {A} (l : list A) (n : nat) :
  n <> 0%nat ->
  exists cs,
    divide_chunks l n = Some cs
    /\ concat cs = l
    /\ length cs = ((length l + n - 1) / n)%nat
    /\ forall k c, cs !! k = Some c ->
         (1 <= length c <= n)%nat
         /\ ((S k < length cs)%nat -> length c = n).
Proof.
  intros Hn. unfold divide_chunks. destruct n as [|n']; [congruence|].
  set (n := S n') in *. set (m := ((length l + n - 1) / n)%nat).
  eexists. split; [reflexivity|].
  split; [rewrite take_chunks_concat; apply take_ge, ceil_cover; assumption|].
  split; [rewrite length_map, length_seq; reflexivity|].
  intros k c Hk. rewrite length_map, length_seq.
  rewrite list_lookup_fmap in Hk.
  destruct (seq 0 m !! k) as [k'|] eqn:Hseq; [|discriminate].
  apply lookup_seq in Hseq as [-> Hlt]. simpl in Hk. inversion Hk; subst c.
  rewrite length_take, length_drop.
  destruct (Nat.eq_dec (length l) 0%nat) as [Hz|Hnz].
  { exfalso. unfold m in Hlt. rewrite Hz, ceil_zero in Hlt by assumption. lia. }
  pose proof (ceil_tight (length l) n Hn Hnz) as Ht. fold m in Ht.
  split; [nia|]. intros Hlast. nia.
Qed.

Lemma divide_chunks_shape_witness :
  exists cs,
    divide_chunks [1; 2; 3; 4; 5]%nat 2 = Some cs
    /\ concat cs = [1; 2; 3; 4; 5]%nat
    /\ length cs = ((length [1; 2; 3; 4; 5]%nat + 2 - 1) / 2)%nat
    /\ forall k c, cs !! k = Some c ->
         (1 <= length c <= 2)%nat
         /\ ((S k < length cs)%nat -> length c = 2%nat).
Proof.
  apply (divide_chunks_shape [1; 2; 3; 4; 5]%nat 2). lia.
Defined.

(** ** The fields of an S-record line *)

Lemma upper_length s : String.length (upper s) = String.length s.
Proof. induction s as [|c s IH]; simpl; [reflexivity | rewrite IH; reflexivity]. Qed.

Lemma string_length_cons c s : String.length (String c s) = S (String.length s).
Proof. reflexivity. Qed.

Lemma hex_str_length_digit n : 0 <= n < 16 -> String.length (hex_str n) = 1%nat.
Proof.
  intros Hn. unfold hex_str. simpl hex_go.
  rewrite (Z.div_small n 16) by lia. reflexivity.
Qed.

Lemma hex_str_length_byte n : 16 <= n < 256 -> String.length (hex_str n) = 2%nat.
Proof.
  intros Hn. unfold hex_str.
  assert (Hlog : 4 <= Z.log2 n) by (apply Z.log2_le_pow2; simpl; lia).
  destruct (Z.to_nat (Z.log2 n)) as [|f] eqn:Hf; [lia|].
  change (hex_go (S (S f)) n EmptyString) with
    (let acc' := String (hex_digit (n mod 16)) EmptyString in
     if n / 16 =? 0 then acc' else hex_go (S f) (n / 16) acc').
  cbv zeta.
  assert (Hq : (n / 16 =? 0) = false).
  { apply Z.eqb_neq. pose proof (Z.div_le_lower_bound n 16 1). lia. }
  rewrite Hq. simpl hex_go.
  assert (Hqq : n / 16 / 16 = 0).
  { rewrite Z.div_div by lia. apply Z.div_small. lia. }
  rewrite Hqq. reflexivity.
Qed.

Lemma int16_go_zeros k s : int16_go 0 (repeat_char "0"%char k +:+ s) = int16_go 0 s.
Proof. induction k as [|k IH]; [reflexivity|]. simpl. exact IH. Qed.

(** [int("{:0>6x}".format(n).upper(), 16) == n]. *)
Lemma int16_format_06x n : 0 <= n -> int16 (upper (format_06x n)) = Some n.
Proof.
  intros Hn. rewrite int16_upper. unfold format_06x.
  rewrite int16_nonempty.
  - rewrite int16_go_zeros, <- int16_nonempty by apply hex_str_nonempty.
    apply int16_hex_str, Hn.
  - destruct (repeat_char _ _); [apply hex_str_nonempty | discriminate].
Qed.

(** What a successful pass of the chunk loop has printed and left. *)
Lemma encode_chunk_fields addr c l addr' :
  encode_chunk addr c = Some (l, addr') ->
  line_address l = addr /\ chunk l = c
  /\ byte_count l
     = (let n := Z.of_nat (length c + address_size + checksum_size) in
        if n <=? 15 then "0" +:+ hex_str n else hex_str n)
  /\ String.length (checksum l) = 2%nat
  /\ exists a, int16 addr = Some a
       /\ addr' = upper (format_06x (a + Z.of_nat SRECORD_DATA_SIZE)).
Proof.
  unfold encode_chunk.
  destruct (sum_int16 (pairs addr)) as [ta|] eqn:Hta; [|discriminate].
  destruct (sum_int16 c) as [tc|] eqn:Htc; [|discriminate]. simpl mbind.
  set (n := Z.of_nat (length c + address_size + checksum_size)).
  rewrite (byte_count_value n) by lia. simpl mbind.
  pose proof (sum_int16_nonneg _ _ Hta). pose proof (sum_int16_nonneg _ _ Htc).
  rewrite int16_last2_hex_str by lia. simpl mbind.
  destruct (int16 addr) as [a|] eqn:Ha; [|discriminate]. simpl mbind.
  intros [= <- <-]. cbn [line_address chunk byte_count checksum].
  split; [reflexivity|]. split; [reflexivity|]. split; [reflexivity|].
  split; [|eauto].
  set (m := (n + (ta + tc)) mod 256).
  assert (Hm : 0 <= m < 256) by (apply Z.mod_pos_bound; lia).
  rewrite lxor_ff by assumption.
  destruct (Z.lt_ge_cases (255 - m) 16) as [Hs|Hb].
  - rewrite upper_length, hex_str_length_digit by lia.
    rewrite Nat.eqb_refl, append_cons, string_length_cons.
    rewrite append_length, upper_length, hex_str_length_digit by lia. reflexivity.
  - rewrite upper_length, hex_str_length_byte by lia.
    change (2 =? 1)%nat with false. cbv iota.
    rewrite upper_length, hex_str_length_byte by lia. reflexivity.
Qed.

Lemma encode_chunks_fields cs : forall addr ls,
  encode_chunks addr cs = Some ls ->
  map chunk ls = cs
  /\ List.Forall (fun l => String.length (checksum l) = 2%nat
                    /\ byte_count l
                       = (let n := Z.of_nat (length (chunk l) + address_size
                                             + checksum_size) in
                          if n <=? 15 then "0" +:+ hex_str n else hex_str n)) ls
  /\ forall a, int16 addr = Some a ->
       forall k l, ls !! k = Some l ->
         int16 (line_address l)
         = Some (a + Z.of_nat SRECORD_DATA_SIZE * Z.of_nat k).
Proof.
  induction cs as [|c cs IH]; intros addr ls; simpl.
  - intros [= <-]. split; [reflexivity|]. split; [constructor|].
    intros a _ k l Hk. rewrite lookup_nil in Hk. discriminate.
  - destruct (encode_chunk addr c) as [[l addr']|] eqn:He; [|discriminate].
    simpl mbind.
    destruct (encode_chunks addr' cs) as [ls'|] eqn:Hls; [|discriminate].
    simpl mbind. intros [= <-].
    destruct (encode_chunk_fields _ _ _ _ He) as (Hla & Hch & Hbc & Hck & a0 & Ha0 & Hnext).
    destruct (IH addr' ls' Hls) as (Hmap & Hall & Haddr).
    split; [simpl; rewrite Hch, Hmap; reflexivity|].
    split; [constructor; [rewrite Hch; auto | exact Hall]|].
    intros a Ha [|k] l0 Hk; simpl in Hk.
    + inversion Hk; subst l0. rewrite Hla, Ha. f_equal. lia.
    + rewrite Ha in Ha0. inversion Ha0; subst a0.
      rewrite (Haddr (a + Z.of_nat SRECORD_DATA_SIZE)) with (k := k) (l := l0).
      * f_equal. lia.
      * rewrite Hnext. apply int16_format_06x.
        pose proof (int16_nonneg _ _ Ha). lia.
      * exact Hk.
Qed.

(** X2.  Every line the encoder prints has a checksum field of exactly
    two characters, and a byte-count field of exactly two characters as
    long as the chunk has at most 251 elements (always so on the path for
    more than 32 bytes). *)
Theorem srecord_field_widths (e : transaction) (ls : list srec_line) :
  srecord_entry e = Some ls ->
  List.Forall (fun l => String.length (checksum l) = 2%nat
                  /\ ((length (chunk l) <= 251)%nat ->
                      String.length (byte_count l) = 2%nat)) ls.
Proof.
  unfold srecord_entry. destruct (data_chunks e) as [cs|]; [|discriminate].
  simpl mbind. intros Hls.
  destruct (encode_chunks_fields _ _ _ Hls) as (_ & Hall & _).
  eapply List.Forall_impl; [|exact Hall].
  intros l [Hck Hbc]. split; [exact Hck|]. intros Hlen. rewrite Hbc. cbv zeta.
  set (n := Z.of_nat (length (chunk l) + address_size + checksum_size)).
  assert (Hn : 4 <= n < 256) by (unfold n, address_size, checksum_size; lia).
  destruct (Z.leb_spec n 15).
  - rewrite append_cons, string_length_cons, append_length.
    rewrite hex_str_length_digit by lia. reflexivity.
  - apply hex_str_length_byte. lia.
Qed.

Lemma srecord_field_widths_witness :
  List.Forall (fun l => String.length (checksum l) = 2%nat
                  /\ ((length (chunk l) <= 251)%nat ->
                      String.length (byte_count l) = 2%nat))
    [SrecLine "24" "000000" (repeat "00" 32) "DB";
     SrecLine "05" "000020" ["00"] "DA"].
Proof.
  apply (srecord_field_widths transaction33). vm_compute. reflexivity.
Defined.

(** X3.  The address printed on the k-th line of a transaction (counting
    from 0) is the transaction's address plus 32 times k, on both paths:
    the address advances by 32 after every line, whatever the line
    carried. *)
Theorem srecord_line_addresses (e : transaction) (ls : list srec_line) (a : Z) :
  srecord_entry e = Some ls ->
  int16 (address e) = Some a ->
  forall k l, ls !! k = Some l ->
    int16 (line_address l) = Some (a + 32 * Z.of_nat k).
Proof.
  unfold srecord_entry. destruct (data_chunks e) as [cs|]; [|discriminate].
  simpl mbind. intros Hls Ha k l Hk.
  destruct (encode_chunks_fields _ _ _ Hls) as (_ & _ & Haddr).
  exact (Haddr a Ha k l Hk).
Qed.

Lemma srecord_line_addresses_witness :
  int16 (line_address (SrecLine "05" "000020" ["00"] "DA"))
  = Some (0 + 32 * Z.of_nat 1).
Proof.
  apply (srecord_line_addresses transaction33
           [SrecLine "24" "000000" (repeat "00" 32) "DB";
            SrecLine "05" "000020" ["00"] "DA"] 0).
  - vm_compute. reflexivity.
  - reflexivity.
  - reflexivity.
Defined.

Lemma chars_length s : length (chars s) = String.length s.
Proof. induction s as [|c s IH]; simpl; [reflexivity | rewrite IH; reflexivity]. Qed.

Lemma chars_hex s :
  hexb s = true -> List.Forall (fun b => hex_field b = true) (chars s).
Proof.
  induction s as [|c s IH]; simpl; intros H; [constructor|].
  destruct (hex_val c) eqn:Hc; [|discriminate].
  constructor; [simpl; rewrite Hc; reflexivity | apply IH, H].
Qed.

(** X4.  A transaction of at most 32 data bytes, each of two hexadecimal
    digits, is printed as one line per data byte: the chunk of the k-th
    line is the two digits of the k-th byte taken as two elements, and
    every line carries the byte count 06. *)
Theorem srecord_short_one_line_per_byte (e : transaction) :
  (length (data e) <= SRECORD_DATA_SIZE)%nat ->
  hex_field (address e) = true ->
  forallb hex_byte (data e) = true ->
  exists ls,
    srecord_entry e = Some ls
    /\ map chunk ls = map chars (data e)
    /\ List.Forall (fun l => byte_count l = "06") ls.
Proof.
  intros Hlen Ha Hd. rewrite forallb_forall in Hd.
  unfold srecord_entry, data_chunks.
  destruct (Nat.ltb_spec SRECORD_DATA_SIZE (length (data e))) as [Hgt|_]; [lia|].
  simpl mbind.
  destruct (encode_chunks_sum (map chars (data e)) (address e) Ha) as (ls & Hls & Hmap & _).
  { apply List.Forall_forall. intros c Hc. apply in_map_iff in Hc as (d & <- & Hin).
    specialize (Hd d Hin). unfold hex_byte in Hd.
    apply andb_true_iff in Hd as [Hh _].
    apply chars_hex. apply (hex_field_nonempty d Hh). }
  exists ls. split; [exact Hls|]. split; [exact Hmap|].
  destruct (encode_chunks_fields _ _ _ Hls) as (_ & Hall & _).
  apply List.Forall_forall. intros l Hl.
  rewrite List.Forall_forall in Hall. destruct (Hall l Hl) as [_ Hbc].
  assert (Hc : In (chunk l) (map chars (data e))).
  { rewrite <- Hmap. apply in_map, Hl. }
  apply in_map_iff in Hc as (d & Hcd & Hin).
  specialize (Hd d Hin). unfold hex_byte in Hd.
  apply andb_true_iff in Hd as [_ Hl2]. apply Nat.eqb_eq in Hl2.
  rewrite Hbc, <- Hcd, chars_length, Hl2. reflexivity.
Qed.

Lemma srecord_short_one_line_per_byte_witness :
  exists ls,
    srecord_entry (Transaction "000102" ["AA"; "BB"; "0c"]) = Some ls
    /\ map chunk ls = map chars (data (Transaction "000102" ["AA"; "BB"; "0c"]))
    /\ List.Forall (fun l => byte_count l = "06") ls.
Proof.
  apply (srecord_short_one_line_per_byte (Transaction "000102" ["AA"; "BB"; "0c"])).
  - vm_compute. lia.
  - reflexivity.
  - reflexivity.
Defined.

(** ** Rows of the SPI export *)

Lemma split_nonempty sep s : split sep s <> [].
Proof.
  destruct s as [|c s]; simpl; [discriminate|].
  destruct (Ascii.eqb c sep); [discriminate|].
  destruct (split sep s); discriminate.
Qed.

Lemma split_length_cons sep c s :
  length (split sep (String c s))
  = if Ascii.eqb c sep then S (length (split sep s)) else length (split sep s).
Proof.
  simpl. destruct (Ascii.eqb c sep); [reflexivity|].
  pose proof (split_nonempty sep s). destruct (split sep s); [congruence | reflexivity].
Qed.

Lemma split_length_snoc_quote s :
  length (split "," (s +:+ String quote EmptyString)) = length (split "," s).
Proof.
  induction s as [|c s IH]; [reflexivity|].
  rewrite append_cons, !split_length_cons, IH. reflexivity.
Qed.

(** X5.  The quote that the SPI reader appends to a line whose field
    count is off never changes the count: a line is read exactly when the
    plain split of the stripped line has as many fields as there are
    distinct header names, and its fields are then that split; every
    other line is skipped. *)
Theorem row_values_plain_split (hp : gmap string nat) (line : string) :
  row_values hp line
  = if (length (split "," (rstrip line)) =? size hp)%nat
    then Some (split "," (rstrip line)) else None.
Proof.
  unfold row_values.
  destruct (length (split "," (rstrip line)) =? size hp)%nat eqn:Hn.
  - rewrite Hn. reflexivity.
  - rewrite split_length_snoc_quote, Hn. reflexivity.
Qed.

(** ** Data bytes of the dual and the quad read *)














(** ** The address of a fast read under a [type] column *)






(** ** Whole transactions *)

Lemma append_nil_r (s : string) : s +:+ EmptyString = s.
Proof. induction s as [|c s IH]; [reflexivity|]. rewrite append_cons, IH. reflexivity. Qed.

Lemma spi_line_result dev headers hp st l mo mi :
  "type" ∈ headers -> "miso" ∈ headers ->
  result_cycle hp l = Some (mo, mi) ->
  spi_line dev headers hp st l = typed_result dev st mo mi.
Proof.
  intros Ht Hm. unfold result_cycle, spi_line.
  destruct (row_values hp l) as [values|]; [|discriminate]. simpl mbind.
  destruct (decide ("type" ∈ headers)); [|contradiction].
  unfold typed_row. destruct (field hp values "type") as [ty|]; [|discriminate].
  simpl mbind. destruct (String.eqb ty (quoted "result")) eqn:Hty; [|discriminate].
  apply String.eqb_eq in Hty. subst ty. simpl String.eqb.
  destruct (decide ("miso" ∈ headers)); [|contradiction].
  destruct (field hp values "mosi") as [mo'|]; [|discriminate].
  destruct (field hp values "miso") as [mi'|]; [|discriminate].
  simpl. intros [= <- <-]. reflexivity.
Qed.

Lemma spi_line_disable dev headers hp st l :
  "type" ∈ headers ->
  is_disable_row hp l = true ->
  spi_line dev headers hp st l
  = match command_found st with
    | Some _ =>
        Continue (SpiState [] None 0 EmptyString 0
                    (spi_results st ++ [Transaction (cur_address st) (data_buf st)])%list)
    | None =>
        Continue (SpiState (data_buf st) None (count st) (cur_address st) 0
                    (spi_results st))
    end.
Proof.
  intros Ht. unfold is_disable_row, spi_line.
  destruct (row_values hp l) as [values|]; [|discriminate].
  destruct (decide ("type" ∈ headers)); [|contradiction].
  unfold typed_row. destruct (field hp values "type") as [ty|]; [|discriminate].
  intros ->. reflexivity.
Qed.

(** The cycles of a plain read in progress: up to the third cycle the
    command-line byte goes to the address, from the fourth on the
    data-line byte goes to the data. *)
Lemma typed_read_cycles dev headers hp cycles : forall rows st rest,
  "type" ∈ headers -> "miso" ∈ headers ->
  command_found st = Some (READ dev) ->
  map (result_cycle hp) rows = map Some cycles ->
  spi_lines dev headers hp st (rows ++ rest)
  = spi_lines dev headers hp
      (SpiState (data_buf st ++ map snd (drop (Z.to_nat (4 - count st)) cycles))
         (Some (READ dev)) (count st + Z.of_nat (length cycles))
         (cur_address st +:+ join (map fst (take (Z.to_nat (4 - count st)) cycles)))
         (res_count st) (spi_results st)) rest.
Proof.
  induction cycles as [|[mo mi] cycles IH]; intros rows st rest Ht Hm Hc Hrows.
  - destruct rows; [|discriminate]. simpl app.
    rewrite drop_nil, take_nil. simpl. rewrite app_nil_r, append_nil_r, Z.add_0_r.
    destruct st; simpl in *. subst. reflexivity.
  - destruct rows as [|row rows]; [discriminate|].
    simpl in Hrows. inversion Hrows as [[Hrow Hrest]].
    simpl app. cbn [spi_lines].
    rewrite (spi_line_result dev headers hp st row mo mi Ht Hm Hrow).
    unfold typed_result. rewrite Hc. unfold cycle. rewrite String.eqb_refl.
    destruct (Z.leb_spec (count st) 3) as [Hle|Hgt].
    + cbv beta iota zeta.
      rewrite IH; [|assumption|assumption|exact Hc|exact Hrest].
      cbn [data_buf count cur_address res_count spi_results command_found].
      replace (Z.to_nat (4 - count st)) with (S (Z.to_nat (4 - (count st + 1)))) by lia.
      cbn [take drop map join fold_right fst snd]. rewrite append_assoc.
      replace (count st + Z.of_nat (length ((mo, mi) :: cycles)))
        with (count st + 1 + Z.of_nat (length cycles)) by (simpl length; lia).
      reflexivity.
    + cbv beta iota zeta.
      rewrite IH; [|assumption|assumption|exact Hc|exact Hrest].
      cbn [data_buf count cur_address res_count spi_results command_found].
      replace (Z.to_nat (4 - count st)) with 0%nat by lia.
      replace (Z.to_nat (4 - (count st + 1))) with 0%nat by lia.
      cbn [take drop map join fold_right fst snd]. rewrite <- app_assoc.
      replace (count st + Z.of_nat (length ((mo, mi) :: cycles)))
        with (count st + 1 + Z.of_nat (length cycles)) by (simpl length; lia).
      reflexivity.
Qed.

(** X8.  With a [type] column, an idle reader that meets the opcode 03
    on a ["result"] row, then any number of ["result"] rows and a
    ["disable"] row, appends exactly one transaction: its address is the
    command-line bytes of the first three rows put together, its data the
    data-line bytes of all later rows in order; the reader is idle again
    afterwards. *)
Theorem typed_read_transaction dev headers hp rs op rows dis mi0 cycles :
  "type" ∈ headers -> "miso" ∈ headers ->
  result_cycle hp op = Some (READ dev, mi0) ->
  map (result_cycle hp) rows = map Some cycles ->
  is_disable_row hp dis = true ->
  spi_lines dev headers hp (SpiState [] None 0 EmptyString 0 rs) (op :: rows ++ [dis])
  = Continue (SpiState [] None 0 EmptyString 0
                (rs ++ [Transaction (join (map fst (take 3 cycles)))
                          (map snd (drop 3 cycles))])%list).
Proof.
  intros Ht Hm Hop Hrows Hdis. cbn [spi_lines].
  rewrite (spi_line_result dev headers hp _ op _ mi0 Ht Hm Hop).
  unfold typed_result. cbn [command_found res_count count data_buf cur_address spi_results].
  rewrite String.eqb_refl. simpl andb. cbv beta iota zeta.
  rewrite (typed_read_cycles dev headers hp cycles rows _ [dis] Ht Hm);
    [|reflexivity|exact Hrows].
  cbn [spi_lines command_found res_count count data_buf cur_address spi_results].
  rewrite (spi_line_disable dev headers hp _ dis Ht Hdis).
  cbn [command_found res_count count data_buf cur_address spi_results].
  change (Z.to_nat (4 - (0 + 1))) with 3%nat. reflexivity.
Qed.

Lemma typed_read_transaction_witness :
  spi_lines (select_device None) typed_headers typed_pos
    (SpiState [] None 0 EmptyString 0 [])
    (result_row "0x03" "0xFF" :: read_rows ++ [disable_row])
  = Continue (SpiState [] None 0 EmptyString 0
                ([] ++ [Transaction
                          (join (map fst (take 3 [("00", "FF"); ("01", "FF"); ("02", "FF");
                                                  ("00", "AA"); ("00", "BB")])))
                          (map snd (drop 3 [("00", "FF"); ("01", "FF"); ("02", "FF");
                                            ("00", "AA"); ("00", "BB")]))])%list).
Proof.
  apply (typed_read_transaction (select_device None) typed_headers typed_pos []
           (result_row "0x03" "0xFF") read_rows disable_row "FF"
           [("00", "FF"); ("01", "FF"); ("02", "FF"); ("00", "AA"); ("00", "BB")]).
  - vm_compute. repeat constructor.
  - vm_compute. repeat constructor.
  - vm_compute. reflexivity.
  - vm_compute. reflexivity.
  - vm_compute. reflexivity.
Defined.





(** ** The base reader without anomalies *)

Lemma repair_from_long (n : nat) : forall rest cur,
  (n <= length (val cur))%nat ->
  List.Forall (fun r => (n <= length (val r))%nat) rest ->
  repair_from n cur rest = Some (cur :: rest).
Proof.
  induction rest as [|nx rest IH]; intros cur Hc Hall; simpl.
  - destruct (Nat.ltb_spec (length (val cur)) n); [lia | reflexivity].
  - destruct (Nat.ltb_spec (length (val cur)) n); [lia|].
    inversion Hall; subst. rewrite IH by assumption. reflexivity.
Qed.

(** X10.  The repair pass changes nothing when no record has fewer fields
    than the header: records of the right count, and records with too
    many fields, stay as they are and none is dropped. *)
Theorem repair_keeps_full_records (n : nat) (rs : list record) :
  List.Forall (fun r => (n <= length (val r))%nat) rs ->
  repair n rs = Some rs.
Proof.
  intros Hall. destruct rs as [|r rest]; [reflexivity|].
  inversion Hall; subst. apply repair_from_long; assumption.
Qed.

Lemma repair_keeps_full_records_witness :
  repair 2 [Rec ["a"; "b"] None None; Rec ["c"; "d"; "e"] None None]
  = Some [Rec ["a"; "b"] None None; Rec ["c"; "d"; "e"] None None].
Proof.
  apply (repair_keeps_full_records 2). repeat constructor.
Defined.

(** ** The anchors of a filtered read *)

Lemma set_last_after_snoc buf rs r :
  set_last_after buf (rs ++ [r]) = (rs ++ [Rec (val r) (before r) (Some buf)])%list.
Proof.
  induction rs as [|x rs IH]; [reflexivity|].
  simpl. rewrite IH. destruct (rs ++ [r])%list eqn:Hl; [|reflexivity].
  destruct rs; discriminate.
Qed.


Lemma set_last_after_before buf rs : map before (set_last_after buf rs) = map before rs.
Proof.
  destruct (decide (rs = [])) as [->|Hne]; [reflexivity|].
  destruct (exists_last Hne) as (rs' & r & ->).
  rewrite set_last_after_snoc, !map_app. reflexivity.
Qed.







(** ** The contexts of the anchors *)

Lemma lastn_nil {A} (n : nat) : lastn n (@nil A) = [].
Proof. reflexivity. Qed.

Lemma lastn_length {A} (n : nat) (l : list A) : length (lastn n l) = Nat.min (length l) n.
Proof. unfold lastn. rewrite length_drop. lia. Qed.

(** Pushing a row on a buffer of capacity [n]: it is appended while there
    is room, and otherwise takes the place of the oldest row. *)
Lemma lastn_snoc {A} (n : nat) (l : list A) (x : A) :
  (1 <= n)%nat ->
  lastn n (l ++ [x])
  = if (length (lastn n l) <? n)%nat then (lastn n l ++ [x])%list
    else (tail (lastn n l) ++ [x])%list.
Proof.
  intros Hn. rewrite lastn_length. unfold lastn. rewrite length_app. simpl length.
  destruct (Nat.ltb_spec (Nat.min (length l) n) n) as [Hlt|Hge].
  - replace (length l + 1 - n)%nat with 0%nat by lia.
    replace (length l - n)%nat with 0%nat by lia. reflexivity.
  - replace (length l + 1 - n)%nat with ((length l - n) + 1)%nat by lia.
    rewrite drop_app_le by lia. f_equal.
    rewrite <- (drop_drop l 1 (length l - n)).
    destruct (drop (length l - n) l); reflexivity.
Qed.

Lemma read_line_before_context re cfg pat b st l st' pending :
  active_filter cfg = Some pat ->
  cfg_before cfg = Some (Z.of_nat b) -> (1 <= b)%nat ->
  before_buffer st = lastn b pending ->
  read_line re cfg st l = Some st' ->
  if re pat (rstrip l)
  then map before (results st') = (map before (results st) ++ [Some (lastn b pending)])%list
       /\ before_buffer st' = []
  else map before (results st') = map before (results st)
       /\ before_buffer st' = lastn b (pending ++ [split "," (rstrip l)]).
Proof.
  intros Hf Hb Hpos Hbuf. unfold read_line. rewrite Hf, Hb.
  destruct (re pat (rstrip l)).
  - intros [= <-]. simpl. rewrite map_app, Hbuf. simpl. split; [|reflexivity].
    f_equal. destruct (results st); [reflexivity|]. apply set_last_after_before.
  - rewrite (lastn_snoc b pending _ Hpos), <- Hbuf.
    destruct (Z.ltb_spec (Z.of_nat (length (before_buffer st))) (Z.of_nat b)) as [Hlt|Hge].
    + replace (length (before_buffer st) <? b)%nat with true
        by (symmetry; apply Nat.ltb_lt; lia).
      simpl mbind. intros H.
      assert (Hr : (results st' = results st
                    \/ results st' = set_last_after (after_buffer st) (results st))
                   /\ before_buffer st'
                      = (before_buffer st ++ [split "," (rstrip l)])%list).
      { repeat match type of H with
        | match ?o with Some _ => _ | None => _ end = _ => destruct o
        | match ?rs with [] => _ | _ :: _ => _ end = _ => destruct rs
        | (if ?c then _ else _) = _ => destruct c
        end; inversion H; simpl; auto. }
      destruct Hr as [[-> | ->] ->]; split; auto using set_last_after_before.
    + replace (length (before_buffer st) <? b)%nat with false
        by (symmetry; apply Nat.ltb_ge; lia).
      destruct (before_buffer st) as [|x tl] eqn:Hbb; [simpl in Hge; lia|].
      simpl mbind. intros H.
      assert (Hr : (results st' = results st
                    \/ results st' = set_last_after (after_buffer st) (results st))
                   /\ before_buffer st' = (tl ++ [split "," (rstrip l)])%list).
      { repeat match type of H with
        | match ?o with Some _ => _ | None => _ end = _ => destruct o
        | match ?rs with [] => _ | _ :: _ => _ end = _ => destruct rs
        | (if ?c then _ else _) = _ => destruct c
        end; inversion H; simpl; auto. }
      destruct Hr as [[-> | ->] ->]; split; auto using set_last_after_before.
Qed.

Lemma read_lines_before_context re cfg pat b rows : forall st st' pending,
  active_filter cfg = Some pat ->
  cfg_before cfg = Some (Z.of_nat b) -> (1 <= b)%nat ->
  before_buffer st = lastn b pending ->
  read_lines re cfg st rows = Some st' ->
  map before (results st')
  = (map before (results st) ++ map Some (before_contexts re pat b pending rows))%list.
Proof.
  induction rows as [|l ls IH]; intros st st' pending Hf Hb Hpos Hbuf; simpl.
  - intros [= <-]. rewrite app_nil_r. reflexivity.
  - destruct (read_line re cfg st l) as [st1|] eqn:Hl; [|discriminate]. simpl mbind.
    intros Hrun.
    pose proof (read_line_before_context re cfg pat b st l st1 pending Hf Hb Hpos Hbuf Hl)
      as Hstep.
    destruct (re pat (rstrip l)); destruct Hstep as [Hmap Hbuf1].
    + rewrite (IH st1 st' [] Hf Hb Hpos Hbuf1 Hrun), Hmap. simpl.
      rewrite <- app_assoc. reflexivity.
    + rewrite (IH st1 st' _ Hf Hb Hpos Hbuf1 Hrun), Hmap. reflexivity.
Qed.

(** X12.  Under a data filter and [-b b] with a positive [b], every
    anchor carries as ['before'] the last [b] non-matching rows read
    since the previous anchor (all of them when they are fewer), oldest
    first; rows older than that, and rows before an earlier anchor, are
    never part of it. *)
Theorem before_context_recent_rows re cfg pat (b : nat) (rows : list string) st :
  active_filter cfg = Some pat ->
  cfg_before cfg = Some (Z.of_nat b) -> (1 <= b)%nat ->
  read_lines re cfg (ReaderState [] [] []) rows = Some st ->
  map before (results st) = map Some (before_contexts re pat b [] rows).
Proof.
  intros Hf Hb Hpos Hrun.
  apply (read_lines_before_context re cfg pat b rows (ReaderState [] [] []) st []);
    [assumption..| reflexivity | exact Hrun].
Qed.

Lemma before_context_recent_rows_witness :
  map before
    (results
       (ReaderState [["u"; "0x06"]] [["u"; "0x06"]]
          [Rec ["x"; "0xA5"] (Some [["p"; "0x01"]; ["q"; "0x02"]])
               (Some [["r"; "0x03"]; ["s"; "0x04"]]);
           Rec ["y"; "0xa5"] (Some [["s"; "0x04"]; ["t"; "0x05"]]) None]))
  = map Some (before_contexts search_literal "A5" 2 [] window_rows).
Proof.
  apply (before_context_recent_rows search_literal
           (Config (Some "A5") (Some 2) (Some 2)) "A5" 2 window_rows).
  - reflexivity.
  - reflexivity.
  - lia.
  - vm_compute. reflexivity.
Defined.

Lemma last_lacks_after_snoc rs r :
  last_lacks_after (rs ++ [r])
  = match after r with None => true | Some _ => false end.
Proof. unfold last_lacks_after. rewrite last_snoc. reflexivity. Qed.

Lemma removelast_snoc {A} (l : list A) (x : A) : removelast (l ++ [x]) = l.
Proof. apply removelast_last. Qed.

Lemma read_line_after_context re cfg pat a st l st' run :
  active_filter cfg = Some pat ->
  cfg_after cfg = Some (Z.of_nat a) ->
  after_inv a st run ->
  read_line re cfg st l = Some st' ->
  if re pat (rstrip l)
  then after_inv a st' (Some [])
       /\ map after (removelast (results st'))
          = (map after (removelast (results st))
             ++ match run with None => [] | Some r => [Some (take a r)] end)%list
  else after_inv a st' (option_map (fun r => (r ++ [split "," (rstrip l)])%list) run)
       /\ map after (removelast (results st')) = map after (removelast (results st)).
Proof.
  intros Hf Ha Hinv. unfold read_line. rewrite Hf, Ha.
  destruct (re pat (rstrip l)).
  - intros [= <-]. cbn [results after_buffer]. rewrite removelast_snoc.
    split.
    + eexists _, _. split; [reflexivity|]. split; [rewrite take_nil; reflexivity|].
      simpl. destruct a; reflexivity.
    + destruct run as [r|]; simpl in Hinv.
      * destruct Hinv as (rs & lst & Hres & Hbuf & Hlast). rewrite Hres.
        replace (match (rs ++ [lst])%list with
                 | [] => []
                 | _ :: _ => set_last_after (after_buffer st) (rs ++ [lst])
                 end) with (set_last_after (after_buffer st) (rs ++ [lst]))
          by (destruct rs; reflexivity).
        rewrite set_last_after_snoc, removelast_snoc, map_app, Hbuf. reflexivity.
      * rewrite Hinv. reflexivity.
  - destruct (match cfg_before cfg with Some _ => _ | None => _ end) as [bb|];
      [|discriminate]. simpl mbind.
    destruct run as [r|]; simpl in Hinv; simpl option_map.
    + destruct Hinv as (rs & lst & Hres & Hbuf & Hlast). rewrite Hres.
      replace (match (rs ++ [lst])%list with
               | [] => Some (ReaderState bb (after_buffer st) (rs ++ [lst]))
               | _ :: _ =>
                   if Z.of_nat (length (after_buffer st)) <? Z.of_nat a
                   then Some (ReaderState bb (after_buffer st ++ [split "," (rstrip l)])
                                (rs ++ [lst]))
                   else if last_lacks_after (rs ++ [lst])
                        then Some (ReaderState bb (after_buffer st)
                                     (set_last_after (after_buffer st) (rs ++ [lst])))
                        else Some (ReaderState bb (after_buffer st) (rs ++ [lst]))
               end)
        with (if Z.of_nat (length (after_buffer st)) <? Z.of_nat a
              then Some (ReaderState bb (after_buffer st ++ [split "," (rstrip l)])
                           (rs ++ [lst]))
              else if last_lacks_after (rs ++ [lst])
                   then Some (ReaderState bb (after_buffer st)
                                (set_last_after (after_buffer st) (rs ++ [lst])))
                   else Some (ReaderState bb (after_buffer st) (rs ++ [lst])))
        by (destruct rs; reflexivity).
      rewrite Hbuf, length_take.
      destruct (Z.ltb_spec (Z.of_nat (Nat.min a (length r))) (Z.of_nat a)) as [Hlt|Hge].
      * intros [= <-]. cbn [results after_buffer]. split; [|reflexivity].
        exists rs, lst. split; [reflexivity|].
        rewrite length_app. simpl length.
        rewrite (take_ge r a) by lia. rewrite take_ge by (rewrite length_app; simpl; lia).
        split; [reflexivity|].
        rewrite Hlast.
        destruct (Nat.ltb_spec a (length r)); [lia|].
        destruct (Nat.ltb_spec a (length r + 1)); [lia | reflexivity].
      * rewrite last_lacks_after_snoc, Hlast.
        assert (Htake : take a (r ++ [split "," (rstrip l)]) = take a r)
          by (apply take_app_le; lia).
        destruct (Nat.ltb_spec a (length r)) as [Hlong|Hshort].
        -- intros [= <-]. cbn [results after_buffer]. split; [|reflexivity].
           exists rs, lst. split; [reflexivity|]. rewrite Htake.
           split; [reflexivity|]. rewrite Hlast, length_app. simpl length.
           destruct (Nat.ltb_spec a (length r)); [|lia].
           destruct (Nat.ltb_spec a (length r + 1)); [reflexivity | lia].
        -- intros [= <-]. cbn [results after_buffer].
           rewrite set_last_after_snoc, !removelast_snoc. split; [|reflexivity].
           eexists rs, _. split; [reflexivity|]. rewrite Htake.
           split; [reflexivity|]. simpl after. rewrite length_app. simpl length.
           destruct (Nat.ltb_spec a (length r + 1)); [reflexivity | lia].
    + rewrite Hinv. intros [= <-]. simpl. auto.
Qed.

Lemma read_lines_after_context re cfg pat a rows : forall st st' run,
  active_filter cfg = Some pat ->
  cfg_after cfg = Some (Z.of_nat a) ->
  after_inv a st run ->
  read_lines re cfg st rows = Some st' ->
  map after (results st')
  = (map after (removelast (results st)) ++ after_contexts re pat a run rows)%list.
Proof.
  induction rows as [|l ls IH]; intros st st' run Hf Ha Hinv; simpl.
  - intros [= <-]. destruct run as [r|]; simpl in Hinv.
    + destruct Hinv as (rs & lst & Hres & _ & Hlast).
      rewrite Hres, removelast_snoc, map_app. simpl. rewrite Hlast. reflexivity.
    + rewrite Hinv. reflexivity.
  - destruct (read_line re cfg st l) as [st1|] eqn:Hl; [|discriminate]. simpl mbind.
    intros Hrun.
    pose proof (read_line_after_context re cfg pat a st l st1 run Hf Ha Hinv Hl) as Hstep.
    destruct (re pat (rstrip l)); destruct Hstep as [Hinv1 Hmap].
    + rewrite (IH st1 st' _ Hf Ha Hinv1 Hrun), Hmap, <- app_assoc. reflexivity.
    + rewrite (IH st1 st' _ Hf Ha Hinv1 Hrun), Hmap. reflexivity.
Qed.

(** X13.  Under a data filter and [-a a], the ['after'] keys of the
    anchors are: for an anchor that another anchor follows, the first [a]
    non-matching rows between the two (all of them when fewer); for the
    last anchor of the stream, the first [a] rows that follow it when
    more than [a] non-matching rows follow, and no key at all when [a]
    rows or fewer follow. *)
Theorem after_context_of_anchors re cfg pat (a : nat) (rows : list string) st :
  active_filter cfg = Some pat ->
  cfg_after cfg = Some (Z.of_nat a) ->
  read_lines re cfg (ReaderState [] [] []) rows = Some st ->
  map after (results st) = after_contexts re pat a None rows.
Proof.
  intros Hf Ha Hrun.
  apply (read_lines_after_context re cfg pat a rows (ReaderState [] [] []) st None);
    [assumption..| reflexivity | exact Hrun].
Qed.

Lemma after_context_of_anchors_witness :
  map after
    (results
       (ReaderState [["u"; "0x06"]] [["u"; "0x06"]]
          [Rec ["x"; "0xA5"] (Some [["p"; "0x01"]; ["q"; "0x02"]])
               (Some [["r"; "0x03"]; ["s"; "0x04"]]);
           Rec ["y"; "0xa5"] (Some [["s"; "0x04"]; ["t"; "0x05"]]) None]))
  = after_contexts search_literal "A5" 2 None window_rows.
Proof.
  apply (after_context_of_anchors search_literal
           (Config (Some "A5") (Some 2) (Some 2)) "A5" 2 window_rows).
  - reflexivity.
  - reflexivity.
  - vm_compute. reflexivity.
Defined.

(** ** Printing the listing *)

Lemma print_record_unfiltered cfg r :
  active_filter cfg = None -> print_record cfg r = Some [PrintRow (val r)].
Proof.
  unfold active_filter, print_record. intros Hf.
  destruct (cfg_data_filter cfg) as [[|c p]|]; try discriminate;
    rewrite !andb_false_r; reflexivity.
Qed.

Lemma print_results_rows cfg (rs : list record) :
  active_filter cfg = None ->
  print_results cfg rs = Some (map (fun r => PrintRow (val r)) rs).
Proof.
  intros Hf. induction rs as [|r rs IH]; [reflexivity|].
  simpl. rewrite (print_record_unfiltered cfg r Hf), IH. reflexivity.
Qed.

(** X14.  Without a data filter the listing prints exactly one row per
    record, the record's fields, in order, and cannot raise, whatever
    [-b] and [-a] are. *)
Theorem unfiltered_listing_rows cfg (rs : list record) :
  active_filter cfg = None ->
  print_results cfg rs = Some (map (fun r => PrintRow (val r)) rs).
Proof.
  intros Hf. induction rs as [|r rs IH]; [reflexivity|].
  cbn [print_results map].
  unfold print_record, active_filter in *.
  destruct (cfg_data_filter cfg) as [[|c p]|]; try discriminate;
    rewrite !andb_false_r; simpl mbind; rewrite IH; reflexivity.
Qed.

Lemma unfiltered_listing_rows_witness :
  print_results (Config None (Some 2) (Some 3)) column_records
  = Some (map (fun r => PrintRow (val r)) column_records).
Proof.
  apply (unfiltered_listing_rows (Config None (Some 2) (Some 3)) column_records).
  reflexivity.
Defined.

(** X15.  Reading an export whose rows all have at least the header's
    field count, without a data filter, and printing the result set
    gives back the rows of the file, one printed row per line, each split
    at the commas. *)
Theorem unfiltered_read_then_print re cfg (h : string) (rows : list string) :
  active_filter cfg = None ->
  List.Forall (fun l => (length (split "," (rstrip h))
                         <= length (split "," (rstrip l)))%nat) rows ->
  exists rs,
    read_file re cfg (h :: rows) = Some (split "," (rstrip h), rs)
    /\ print_results cfg rs
       = Some (map (fun l => PrintRow (split "," (rstrip l))) rows).
Proof.
  intros Hf Hall. unfold read_file.
  destruct (read_lines_unfiltered re cfg rows (ReaderState [] [] []) Hf)
    as (st & Hrun & Hres).
  rewrite Hrun. simpl mbind. rewrite Hres. simpl app.
  assert (Hrep : repair (length (split "," (rstrip h))) (raw_records rows)
                 = Some (raw_records rows)).
  { destruct (raw_records rows) as [|r rest] eqn:Hraw; [reflexivity|].
    assert (Hall' : List.Forall (fun r => (length (split "," (rstrip h))
                                           <= length (val r))%nat) (r :: rest)).
    { rewrite <- Hraw. unfold raw_records. apply List.Forall_forall.
      intros x Hx. apply in_map_iff in Hx as (l & <- & Hin).
      rewrite List.Forall_forall in Hall. apply Hall, Hin. }
    inversion Hall'; subst. simpl. apply repair_from_long; assumption. }
  rewrite Hrep. simpl mbind. eexists. split; [reflexivity|].
  rewrite (print_results_rows cfg _ Hf). unfold raw_records.
  rewrite map_map. reflexivity.
Qed.

Lemma unfiltered_read_then_print_witness :
  exists rs,
    read_file search_literal (Config None None None) ("a,b" :: ["1,2"; "3,4,5"])
    = Some (split "," (rstrip "a,b"), rs)
    /\ print_results (Config None None None) rs
       = Some (map (fun l => PrintRow (split "," (rstrip l))) ["1,2"; "3,4,5"]).
Proof.
  apply (unfiltered_read_then_print search_literal (Config None None None)
           "a,b" ["1,2"; "3,4,5"]).
  - reflexivity.
  - repeat constructor.
Defined.

(** X16.  Under a column filter naming a column of the header, the loop
    prints, in order, the values of that column that are not empty; it
    raises only when some record has no field at the column's position. *)
Theorem print_column_values headers hp c i (rs : list record) :
  hp !! c = Some i ->
  print_column headers hp c rs
  = vs ← mapM (fun r => val r !! i) rs;
    Some (List.filter (fun v => negb (String.eqb v EmptyString)) vs).
Proof.
  intros Hc. induction rs as [|r rs IH]; [reflexivity|].
  cbn [print_column mapM]. rewrite Hc, IH.
  destruct (val r !! i) as [v|]; [|reflexivity]. simpl.
  destruct (mapM (fun r => val r !! i) rs) as [vs|]; [|reflexivity]. simpl.
  destruct (String.eqb v EmptyString); reflexivity.
Qed.

Lemma print_column_values_witness :
  print_column ["name"; "data"] (base_header_pos ["name"; "data"]) "data" column_records
  = vs ← mapM (fun r => val r !! 1%nat) column_records;
    Some (List.filter (fun v => negb (String.eqb v EmptyString)) vs).
Proof.
  apply (print_column_values ["name"; "data"] (base_header_pos ["name"; "data"])
           "data" 1%nat column_records).
  vm_compute. reflexivity.
Defined.

(** ** The CAN grouper *)

Lemma add_to_last_snoc d fs f :
  add_to_last d (fs ++ [f]) = (fs ++ [CanFrame (id f) (frame_data f ++ [d])])%list.
Proof.
  induction fs as [|x fs IH]; [reflexivity|].
  simpl. rewrite IH. destruct (fs ++ [f])%list eqn:Hl; [|reflexivity].
  destruct fs; discriminate.
Qed.

(** One row of the grouper against the two readings of the row. *)
Lemma can_line_cases hp st l st' :
  can_line hp st l = Some st' ->
  match can_identifier hp l with
  | Some s =>
      st' = CanState true (CanFrame s [])
              (match id_counter st !! s with
               | Some n => if identifier st then <[s := S n]> (id_counter st)
                           else <[s := 1%nat]> (id_counter st)
               | None => <[s := 1%nat]> (id_counter st)
               end)
              (if identifier st then can_results st ++ [temp_entry st]
               else can_results st)%list
  | None =>
      match can_data hp l with
      | Some d =>
          st' = if identifier st
                then CanState true
                       (CanFrame (id (temp_entry st)) (frame_data (temp_entry st) ++ [d]))
                       (id_counter st) (can_results st)
                else st
      | None => st' = st
      end
  end.
Proof.
  unfold can_line, can_identifier, can_data.
  destruct (field hp (split "," (rstrip l)) "type") as [ty|]; [|discriminate].
  simpl mbind.
  destruct (String.eqb ty (quoted "identifier_field")).
  - destruct (field hp (split "," (rstrip l)) "identifier") as [s|]; [|discriminate].
    simpl mbind. destruct (identifier st); intros [= <-].
    + destruct (id_counter st !! s); reflexivity.
    + destruct (id_counter st !! s); reflexivity.
  - destruct (String.eqb ty (quoted "data_field")).
    + destruct (identifier st).
      * destruct (field hp (split "," (rstrip l)) "data") as [d|]; [|discriminate].
        simpl mbind. intros [= <-]. reflexivity.
      * intros [= <-]. destruct (field hp (split "," (rstrip l)) "data"); reflexivity.
    + intros [= <-]. reflexivity.
Qed.

(** Before the first identifier row nothing is held and nothing counted. *)
Lemma can_line_idle hp st l st' :
  (identifier st = false -> can_results st = [] /\ id_counter st = ∅) ->
  can_line hp st l = Some st' ->
  identifier st' = false -> can_results st' = [] /\ id_counter st' = ∅.
Proof.
  intros Hinv Hl. pose proof (can_line_cases hp st l st' Hl) as Hc.
  destruct (can_identifier hp l) as [s|].
  - subst st'. discriminate.
  - destruct (can_data hp l) as [d|].
    + destruct (identifier st) eqn:Hid; subst st'; [discriminate|].
      intros _. apply Hinv. reflexivity.
    + subst st'. exact Hinv.
Qed.

Lemma can_lines_frames hp rows : forall st st',
  (identifier st = false -> can_results st = [] /\ id_counter st = ∅) ->
  can_lines hp st rows = Some st' ->
  can_held st' = can_frames hp (can_held st) rows.
Proof.
  induction rows as [|l ls IH]; intros st st' Hinv; simpl.
  - intros [= <-]. reflexivity.
  - destruct (can_line hp st l) as [st1|] eqn:Hl; [|discriminate]. simpl mbind.
    intros Hrun.
    rewrite (IH st1 st' (can_line_idle hp st l st1 Hinv Hl) Hrun). f_equal.
    pose proof (can_line_cases hp st l st1 Hl) as Hc.
    destruct (can_identifier hp l) as [s|].
    + subst st1. unfold can_held. simpl.
      destruct (identifier st); [reflexivity|]. rewrite app_nil_r. reflexivity.
    + destruct (can_data hp l) as [d|]; [|subst st1; reflexivity].
      unfold can_held. destruct (identifier st) eqn:Hid; subst st1; simpl.
      * rewrite add_to_last_snoc. reflexivity.
      * rewrite Hid. destruct (Hinv eq_refl) as [-> _]. reflexivity.
Qed.

(** X17.  When the grouper ends normally, its result set is the frames of
    the trace without the last one: every identifier-field row opens a
    frame, every data-field row adds its byte to the frame opened last
    (and is dropped before the first identifier row), and the frame that
    is open at the end of the stream is held back and never appended. *)
Theorem can_results_all_but_last (hp : gmap string nat) (rows : list string) st :
  can_lines hp can_init rows = Some st ->
  can_results st = removelast (can_frames hp [] rows)
  /\ (identifier st = true -> last (can_frames hp [] rows) = Some (temp_entry st))
  /\ (identifier st = false -> can_frames hp [] rows = []).
Proof.
  intros Hrun.
  assert (Hinit : identifier can_init = false ->
                  can_results can_init = [] /\ id_counter can_init = ∅)
    by (intros _; split; reflexivity).
  pose proof (can_lines_frames hp rows can_init st Hinit Hrun) as Hheld.
  assert (Hidle : identifier st = false -> can_results st = [] /\ id_counter st = ∅).
  { clear Hheld. revert Hrun Hinit. generalize can_init.
    induction rows as [|l ls IH]; intros s0; simpl.
    - intros [= <-] H. exact H.
    - destruct (can_line hp s0 l) as [s1|] eqn:Hl; [|discriminate]. simpl mbind.
      intros Hrun Hs0. apply (IH s1 Hrun). eapply can_line_idle; eassumption. }
  change (can_held can_init) with (@nil can_frame) in Hheld. rewrite <- Hheld.
  unfold can_held. destruct (identifier st) eqn:Hid.
  - rewrite removelast_last, last_snoc. split; [reflexivity|].
    split; [reflexivity | discriminate].
  - destruct (Hidle eq_refl) as [-> _]. split; [reflexivity|].
    split; [discriminate | reflexivity].
Qed.

Lemma can_results_all_but_last_witness :
  can_results (CanState true (CanFrame "101" ["0xBB"]) {["101" := 2%nat]}
                 [CanFrame "101" ["0xAA"]])
  = removelast (can_frames can_pos [] (tail can_trace))
  /\ (identifier (CanState true (CanFrame "101" ["0xBB"]) {["101" := 2%nat]}
                    [CanFrame "101" ["0xAA"]]) = true ->
      last (can_frames can_pos [] (tail can_trace))
      = Some (temp_entry (CanState true (CanFrame "101" ["0xBB"]) {["101" := 2%nat]}
                            [CanFrame "101" ["0xAA"]])))
  /\ (identifier (CanState true (CanFrame "101" ["0xBB"]) {["101" := 2%nat]}
                    [CanFrame "101" ["0xAA"]]) = false ->
      can_frames can_pos [] (tail can_trace) = []).
Proof.
  apply (can_results_all_but_last can_pos (tail can_trace)).
  vm_compute. reflexivity.
Defined.

Lemma can_line_tally hp st l st' s :
  (identifier st = false -> can_results st = [] /\ id_counter st = ∅) ->
  can_line hp st l = Some st' ->
  default 0%nat (id_counter st' !! s)
  = (default 0%nat (id_counter st !! s)
     + if bool_decide (can_identifier hp l = Some s) then 1 else 0)%nat.
Proof.
  intros Hinv Hl. pose proof (can_line_cases hp st l st' Hl) as Hc.
  destruct (can_identifier hp l) as [s0|].
  - assert (Hcnt : id_counter st'
                   = match id_counter st !! s0 with
                     | Some n => <[s0 := S n]> (id_counter st)
                     | None => <[s0 := 1%nat]> (id_counter st)
                     end).
    { subst st'. simpl. destruct (identifier st) eqn:Hid; [reflexivity|].
      destruct (Hinv eq_refl) as [_ ->]. rewrite lookup_empty. reflexivity. }
    rewrite Hcnt. destruct (decide (s0 = s)) as [->|Hne].
    + rewrite bool_decide_eq_true_2 by reflexivity.
      destruct (id_counter st !! s) as [n|]; rewrite lookup_insert_eq; simpl; lia.
    + rewrite bool_decide_eq_false_2 by congruence.
      destruct (id_counter st !! s0); rewrite lookup_insert_ne by assumption; lia.
  - rewrite bool_decide_eq_false_2 by discriminate.
    destruct (can_data hp l) as [d|].
    + destruct (identifier st); subst st'; simpl; lia.
    + subst st'. lia.
Qed.

Lemma can_lines_tally hp rows s : forall st st',
  (identifier st = false -> can_results st = [] /\ id_counter st = ∅) ->
  can_lines hp st rows = Some st' ->
  default 0%nat (id_counter st' !! s)
  = (default 0%nat (id_counter st !! s) + count_identifier hp s rows)%nat.
Proof.
  induction rows as [|l ls IH]; intros st st' Hinv; simpl.
  - intros [= <-]. unfold count_identifier. simpl. lia.
  - destruct (can_line hp st l) as [st1|] eqn:Hl; [|discriminate]. simpl mbind.
    intros Hrun.
    rewrite (IH st1 st' (can_line_idle hp st l st1 Hinv Hl) Hrun).
    rewrite (can_line_tally hp st l st1 s Hinv Hl).
    unfold count_identifier. simpl.
    destruct (bool_decide (can_identifier hp l = Some s)); simpl; lia.
Qed.

(** X18.  When the grouper ends normally, the tally maps every
    identifier to the number of identifier-field rows that carry it, and
    has no entry for an identifier that no row carries. *)
Theorem can_tally_counts_rows (hp : gmap string nat) (rows : list string) st (s : string) :
  can_lines hp can_init rows = Some st ->
  id_counter st !! s
  = match count_identifier hp s rows with
    | O => None
    | n => Some n
    end.
Proof.
  intros Hrun.
  assert (Hinit : identifier can_init = false ->
                  can_results can_init = [] /\ id_counter can_init = ∅)
    by (intros _; split; reflexivity).
  pose proof (can_lines_tally hp rows s can_init st Hinit Hrun) as Hsum.
  change (id_counter can_init) with (∅ : gmap string nat) in Hsum.
  rewrite lookup_empty in Hsum. simpl in Hsum.
  assert (Hpos : forall n, id_counter st !! s = Some n -> (0 < n)%nat).
  { clear Hsum. revert Hrun.
    assert (H0 : forall n, id_counter can_init !! s = Some n -> (0 < n)%nat)
      by (intros n; simpl; rewrite lookup_empty; discriminate).
    revert H0 Hinit. generalize can_init.
    induction rows as [|l ls IH]; intros s0 H0 Hs0; simpl.
    - intros [= <-]. exact H0.
    - destruct (can_line hp s0 l) as [s1|] eqn:Hl; [|discriminate]. simpl mbind.
      apply IH; [|eapply can_line_idle; eassumption].
      intros n Hn. pose proof (can_line_tally hp s0 l s1 s Hs0 Hl) as Hstep.
      rewrite Hn in Hstep. simpl in Hstep.
      destruct (id_counter s0 !! s) as [m|] eqn:Hm; simpl in Hstep.
      + specialize (H0 m eq_refl). lia.
      + destruct (bool_decide (can_identifier hp l = Some s)) eqn:Hb; [lia|].
        pose proof (can_line_cases hp s0 l s1 Hl) as Hc.
        destruct (can_identifier hp l) as [s2|] eqn:Hci.
        * apply bool_decide_eq_false in Hb.
          assert (Hne : s2 <> s) by congruence.
          subst s1. simpl in Hn.
          destruct (id_counter s0 !! s2); [destruct (identifier s0)|];
            rewrite lookup_insert_ne in Hn by assumption; congruence.
        * destruct (can_data hp l); [destruct (identifier s0)|]; subst s1;
            simpl in Hn; congruence. }
  destruct (id_counter st !! s) as [n|] eqn:Hn; simpl in Hsum.
  - specialize (Hpos n eq_refl). rewrite <- Hsum. destruct n; [lia | reflexivity].
  - rewrite <- Hsum. reflexivity.
Qed.

Lemma can_tally_counts_rows_witness :
  id_counter (CanState true (CanFrame "101" ["0xBB"]) {["101" := 2%nat]}
                [CanFrame "101" ["0xAA"]]) !! "101"
  = match count_identifier can_pos "101" (tail can_trace) with
    | O => None
    | n => Some n
    end.
Proof.
  apply (can_tally_counts_rows can_pos (tail can_trace)).
  vm_compute. reflexivity.
Defined.

(** ** The I2C address scan *)

Lemma filter_is_blank_rows (rows : list (list string)) :
  List.filter is_blank (map PrintRow rows) = [].
Proof. induction rows as [|r rows IH]; [reflexivity | exact IH]. Qed.

Lemma data_run_no_blank hp rest run :
  data_run hp rest = Some run -> List.filter is_blank run = [].
Proof.
  revert run. induction rest as [|r rest IH]; intros run; simpl.
  - intros [= <-]. reflexivity.
  - destruct (hp !! "type") as [i|]; [|discriminate]. simpl mbind.
    destruct (val r !! i) as [ty|]; [|discriminate]. simpl mbind.
    destruct (String.eqb ty (quoted "data")); [|intros [= <-]; reflexivity].
    destruct (data_run hp rest) as [tl|]; [|discriminate]. simpl mbind.
    intros [= <-]. simpl. apply IH. reflexivity.
Qed.

(** X19.  Under an [address] column, when the scan ends normally, it has
    printed one empty line per record whose address field contains the
    target (case-sensitively), and no other empty line: every match opens
    one block, also a match that was already printed as a data row of the
    block before it. *)
Theorem i2c_one_block_per_match target hp i (rs : list record) out :
  hp !! "address" = Some i ->
  i2c_rows target hp rs = Some out ->
  length (List.filter is_blank out)
  = length (List.filter (fun r => match val r !! i with
                                  | Some f => contains target f
                                  | None => false
                                  end) rs).
Proof.
  intros Hi. revert out. induction rs as [|r rest IH]; intros out; simpl.
  - intros [= <-]. reflexivity.
  - rewrite Hi. destruct (val r !! i) as [f|]; [|discriminate]. simpl mbind.
    destruct (contains target f).
    + destruct (data_run hp rest) as [run|] eqn:Hrun; [|discriminate]. simpl mbind.
      destruct (i2c_rows target hp rest) as [tl|]; [|discriminate]. simpl mbind.
      intros [= <-]. simpl. rewrite List.filter_app. simpl.
      rewrite (data_run_no_blank hp rest run Hrun). simpl.
      f_equal. apply IH. reflexivity.
    + apply IH.
Qed.

Lemma i2c_one_block_per_match_witness :
  length (List.filter is_blank
            [PrintRow ["I2C"; quoted "address"; "0x5A"; EmptyString];
             PrintRow ["I2C"; quoted "data"; EmptyString; "0x01"];
             PrintRow ["I2C"; quoted "data"; EmptyString; "0x02"];
             PrintBlank])
  = length (List.filter (fun r => match val r !! 2%nat with
                                  | Some f => contains "5A" f
                                  | None => false
                                  end) i2c_records).
Proof.
  apply (i2c_one_block_per_match "5A" i2c_pos 2%nat i2c_records).
  - vm_compute. reflexivity.
  - vm_compute. reflexivity.
Defined.

(** X20.  Under an [Address] column (and no [address] column) the scan
    prints exactly the records whose Address field contains the target,
    in order, without the rows that follow them and without empty lines;
    it raises only when a record has no field at that position. *)
Theorem i2c_capital_address_rows target hp i (rs : list record) :
  hp !! "address" = None -> hp !! "Address" = Some i ->
  i2c_rows target hp rs
  = fs ← mapM (fun r => val r !! i) rs;
    Some (map (fun r => PrintRow (val r))
            (List.filter (fun r => match val r !! i with
                                   | Some f => contains target f
                                   | None => false
                                   end) rs)).
Proof.
  intros Hl Hu. induction rs as [|r rest IH]; [reflexivity|].
  cbn [i2c_rows mapM]. rewrite Hl, Hu, IH.
  destruct (val r !! i) as [f|] eqn:Hf; [|reflexivity]. simpl mbind.
  destruct (mapM (fun r => val r !! i) rest) as [fs|]; [|reflexivity]. simpl.
  rewrite Hf. destruct (contains target f); reflexivity.
Qed.

Lemma i2c_capital_address_rows_witness :
  i2c_rows "5A" (base_header_pos (split "," "Packet ID,Address,Data")) 
    [Rec ["0"; "0x5A"; "0x01"] None None; Rec ["1"; "0x3C"; "0x02"] None None]
  = fs ← mapM (fun r => val r !! 1%nat)
             [Rec ["0"; "0x5A"; "0x01"] None None; Rec ["1"; "0x3C"; "0x02"] None None];
    Some (map (fun r => PrintRow (val r))
            (List.filter (fun r => match val r !! 1%nat with
                                   | Some f => contains "5A" f
                                   | None => false
                                   end)
               [Rec ["0"; "0x5A"; "0x01"] None None;
                Rec ["1"; "0x3C"; "0x02"] None None])).
Proof.
  apply (i2c_capital_address_rows "5A"
           (base_header_pos (split "," "Packet ID,Address,Data")) 1%nat).
  - vm_compute. reflexivity.
  - vm_compute. reflexivity.
Defined.

(** ** The binary files *)

Lemma fromhex_byte d :
  hex_byte d = true -> fromhex d = Some [byte_value d] /\ 0 <= byte_value d < 256.
Proof.
  unfold hex_byte, byte_value. intros H. apply andb_true_iff in H as [Hh Hl].
  apply Nat.eqb_eq in Hl.
  destruct d as [|c [|e [|x r]]]; try discriminate Hl.
  simpl in Hh. simpl.
  destruct (hex_val c) as [hi|] eqn:Hc; [|discriminate].
  destruct (hex_val e) as [lo|] eqn:He; [|discriminate].
  assert (Hb : is_hex_blank c = false).
  { destruct (is_hex_blank c) eqn:Hb; [|reflexivity]. exfalso.
    revert Hb Hc. clear. destruct c as [[] [] [] [] [] [] [] []]; vm_compute;
      intros; discriminate. }
  rewrite Hb. simpl.
  apply hex_val_range in Hc. apply hex_val_range in He.
  split; [f_equal; f_equal; lia | lia].
Qed.

Lemma write_bytes_length addr bytes : forall i mem seq mem' seq',
  write_bytes addr i bytes mem seq = Some (mem', seq') -> length mem' = length mem.
Proof.
  induction bytes as [|d rest IH]; intros i mem seq mem' seq'; simpl.
  - intros [= <- _]. reflexivity.
  - destruct (int16 addr) as [a|]; [|discriminate]. simpl mbind.
    destruct (fromhex d) as [bs|]; [|discriminate]. simpl mbind.
    destruct (_ <? _)%nat; [|discriminate].
    intros H. rewrite (IH _ _ _ _ _ H). apply length_insert.
Qed.

Lemma write_entries_length results : forall mem seq mem' seq',
  write_entries results mem seq = Some (mem', seq') -> length mem' = length mem.
Proof.
  induction results as [|e es IH]; intros mem seq mem' seq'; simpl.
  - intros [= <- _]. reflexivity.
  - destruct (write_bytes (address e) 0 (data e) mem seq) as [[m1 s1]|] eqn:He;
      [|discriminate]. simpl mbind.
    intros H. rewrite (IH _ _ _ _ H). eapply write_bytes_length, He.
Qed.

(** A data byte whose offset lies at or beyond the end of the image
    stops the loop, whatever came before it. *)
Lemma write_bytes_overflow addr a bytes : forall i mem seq,
  int16 addr = Some a ->
  bytes <> [] ->
  Z.of_nat (length mem) < a + Z.of_nat i + Z.of_nat (length bytes) ->
  write_bytes addr i bytes mem seq = None.
Proof.
  induction bytes as [|d rest IH]; intros i mem seq Ha Hne Hlen; [congruence|].
  pose proof (int16_nonneg _ _ Ha) as Ha0.
  simpl. rewrite Ha. simpl mbind.
  destruct (fromhex d) as [bs|]; [|reflexivity]. simpl mbind.
  destruct (Nat.ltb_spec (Z.to_nat (a + Z.of_nat i)) (length mem)) as [Hin|Hout];
    [|reflexivity].
  apply IH; [exact Ha| |].
  - destruct rest; [simpl in Hlen; lia | discriminate].
  - rewrite length_insert. simpl length in Hlen. lia.
Qed.

(** X21.  If some transaction of the result set has data and its last
    byte would land at or beyond the device size, no binary files come
    out: the run raises, it neither wraps around nor truncates, even when
    the transactions before it fit. *)
Theorem binary_offset_beyond_size dev (results : list transaction) e a :
  In e results ->
  int16 (address e) = Some a ->
  data e <> [] ->
  Z.max 0 (SIZE dev) < a + Z.of_nat (length (data e)) ->
  binary_files dev results = None.
Proof.
  intros Hin Ha Hne Hover. unfold binary_files.
  assert (Hgen : forall mem seq,
             Z.of_nat (length mem) = Z.max 0 (SIZE dev) ->
             write_entries results mem seq = None).
  { induction results as [|x xs IH]; [contradiction|].
    intros mem seq Hm. simpl.
    destruct (write_bytes (address x) 0 (data x) mem seq) as [[m1 s1]|] eqn:Hx;
      [|reflexivity]. simpl mbind.
    destruct Hin as [->|Hin].
    - rewrite (write_bytes_overflow (address e) a (data e) 0 mem seq Ha Hne) in Hx
        by lia. discriminate.
    - apply IH; [exact Hin|]. rewrite (write_bytes_length _ _ _ _ _ _ _ Hx). exact Hm. }
  rewrite Hgen; [reflexivity|]. rewrite length_replicate. lia.
Qed.

Lemma binary_offset_beyond_size_witness :
  binary_files small_device
    [Transaction "000000" ["AA"]; Transaction "000006" ["01"; "02"; "03"]] = None.
Proof.
  apply (binary_offset_beyond_size small_device
           [Transaction "000000" ["AA"]; Transaction "000006" ["01"; "02"; "03"]]
           (Transaction "000006" ["01"; "02"; "03"]) 6).
  - right. left. reflexivity.
  - reflexivity.
  - discriminate.
  - vm_compute. reflexivity.
Defined.

(** The inner loop on a transaction that fits. *)
Lemma write_bytes_fits addr a bytes : forall i mem seq,
  int16 addr = Some a ->
  forallb hex_byte bytes = true ->
  a + Z.of_nat i + Z.of_nat (length bytes) <= Z.of_nat (length mem) ->
  exists mem',
    write_bytes addr i bytes mem seq = Some (mem', (seq ++ map byte_value bytes)%list)
    /\ (forall k d, bytes !! k = Some d ->
          mem' !! (Z.to_nat a + i + k)%nat = Some [byte_value d])
    /\ (forall j, (j < Z.to_nat a + i)%nat
                  \/ (Z.to_nat a + i + length bytes <= j)%nat ->
          mem' !! j = mem !! j).
Proof.
  induction bytes as [|d rest IH]; intros i mem seq Ha Hhex Hlen.
  - exists mem. simpl. rewrite app_nil_r. split; [reflexivity|].
    split; [intros k d Hk; rewrite lookup_nil in Hk; discriminate | reflexivity].
  - pose proof (int16_nonneg _ _ Ha) as Ha0.
    simpl in Hhex. apply andb_true_iff in Hhex as [Hd Hrest].
    destruct (fromhex_byte d Hd) as [Hfrom _].
    simpl length in Hlen.
    simpl write_bytes. rewrite Ha. simpl mbind. rewrite Hfrom. simpl mbind.
    replace (Z.to_nat (a + Z.of_nat i)) with (Z.to_nat a + i)%nat by lia.
    destruct (Nat.ltb_spec (Z.to_nat a + i) (length mem)) as [Hin|Hout]; [|lia].
    destruct (IH (S i) (<[(Z.to_nat a + i)%nat := [byte_value d]]> mem)
                (seq ++ [byte_value d])%list Ha Hrest) as (mem' & Hrun & Hin' & Hout').
    { rewrite length_insert. lia. }
    exists mem'. split.
    { rewrite Hrun. simpl map. rewrite <- app_assoc. reflexivity. }
    split.
    + intros [|k] x Hk; simpl in Hk.
      * inversion Hk; subst x. rewrite Nat.add_0_r.
        rewrite Hout' by lia. apply list_lookup_insert_eq. exact Hin.
      * replace (Z.to_nat a + i + S k)%nat with (Z.to_nat a + S i + k)%nat by lia.
        apply Hin', Hk.
    + intros j Hj. simpl length in Hj.
      rewrite Hout' by lia. apply list_lookup_insert_ne. lia.
Qed.

(** X22.  A transaction with a numeric address and two-digit data bytes
    that fits in the image is written byte by byte: the image keeps its
    length, holds the k-th data byte at offset address + k, is unchanged
    everywhere else, and the sequential stream grows by the data bytes in
    order. *)
Theorem binary_transaction_image (e : transaction) a (mem : list (list Z)) (seq : list Z) :
  int16 (address e) = Some a ->
  forallb hex_byte (data e) = true ->
  a + Z.of_nat (length (data e)) <= Z.of_nat (length mem) ->
  exists mem',
    write_bytes (address e) 0 (data e) mem seq
    = Some (mem', (seq ++ map byte_value (data e))%list)
    /\ length mem' = length mem
    /\ (forall k d, data e !! k = Some d ->
          mem' !! (Z.to_nat a + k)%nat = Some [byte_value d])
    /\ (forall j, (j < Z.to_nat a)%nat \/ (Z.to_nat a + length (data e) <= j)%nat ->
          mem' !! j = mem !! j).
Proof.
  intros Ha Hhex Hlen.
  destruct (write_bytes_fits (address e) a (data e) 0 mem seq Ha Hhex) as
    (mem' & Hrun & Hin & Hout); [lia|].
  exists mem'. split; [exact Hrun|].
  split; [eapply write_bytes_length, Hrun|]. split.
  - intros k d Hk. specialize (Hin k d Hk). rewrite Nat.add_0_r in Hin. exact Hin.
  - intros j Hj. apply Hout. lia.
Qed.

Lemma binary_transaction_image_witness :
  exists mem',
    write_bytes (address (Transaction "000002" ["AA"; "0b"])) 0
      (data (Transaction "000002" ["AA"; "0b"])) (replicate 6 [0]) [7]
    = Some (mem', ([7] ++ map byte_value (data (Transaction "000002" ["AA"; "0b"])))%list)
    /\ length mem' = length (replicate 6 [0])
    /\ (forall k d, data (Transaction "000002" ["AA"; "0b"]) !! k = Some d ->
          mem' !! (Z.to_nat 2 + k)%nat = Some [byte_value d])
    /\ (forall j, (j < Z.to_nat 2)%nat
                  \/ (Z.to_nat 2 + length (data (Transaction "000002" ["AA"; "0b"])) <= j)%nat ->
          mem' !! j = replicate 6 [0] !! j).
Proof.
  apply (binary_transaction_image (Transaction "000002" ["AA"; "0b"]) 2
           (replicate 6 [0]) [7]).
  - reflexivity.
  - reflexivity.
  - vm_compute. discriminate.
Defined.

Lemma write_bytes_singletons addr bytes : forall i mem seq mem' seq',
  forallb hex_byte bytes = true ->
  List.Forall (fun b : list Z => length b = 1%nat) mem ->
  write_bytes addr i bytes mem seq = Some (mem', seq') ->
  List.Forall (fun b : list Z => length b = 1%nat) mem'.
Proof.
  induction bytes as [|d rest IH]; intros i mem seq mem' seq' Hhex Hall; simpl.
  - intros [= <- _]. exact Hall.
  - simpl in Hhex. apply andb_true_iff in Hhex as [Hd Hrest].
    destruct (int16 addr) as [a|]; [|discriminate]. simpl mbind.
    destruct (fromhex_byte d Hd) as [-> _]. simpl mbind.
    destruct (_ <? _)%nat; [|discriminate].
    apply IH; [exact Hrest|]. apply Forall_insert; [exact Hall | reflexivity].
Qed.

Lemma concat_singletons (mem : list (list Z)) :
  List.Forall (fun b : list Z => length b = 1%nat) mem ->
  length (concat mem) = length mem.
Proof.
  induction 1 as [|b mem Hb _ IH]; [reflexivity|].
  simpl. rewrite length_app, Hb, IH. reflexivity.
Qed.

Lemma write_entries_fit size results : forall mem seq,
  forallb (tx_fits size) results = true ->
  Z.of_nat (length mem) = Z.max 0 size ->
  List.Forall (fun b : list Z => length b = 1%nat) mem ->
  exists mem',
    write_entries results mem seq
    = Some (mem', (seq ++ concat (map (fun e => map byte_value (data e)) results))%list)
    /\ length mem' = length mem
    /\ List.Forall (fun b : list Z => length b = 1%nat) mem'.
Proof.
  induction results as [|e es IH]; intros mem seq Hfit Hlen Hall.
  - exists mem. simpl. rewrite app_nil_r. auto.
  - simpl in Hfit. apply andb_true_iff in Hfit as [He Hes].
    unfold tx_fits in He. apply andb_true_iff in He as [Hhex Hroom].
    assert (Hw : exists m1,
               write_bytes (address e) 0 (data e) mem seq
               = Some (m1, (seq ++ map byte_value (data e))%list)).
    { destruct (data e) as [|d ds] eqn:Hdata.
      - exists mem. simpl. rewrite app_nil_r. reflexivity.
      - destruct (int16 (address e)) as [a|] eqn:Ha; [|discriminate].
        apply Z.leb_le in Hroom.
        destruct (write_bytes_fits (address e) a (d :: ds) 0 mem seq Ha Hhex)
          as (m1 & Hrun & _); [lia|].
        exists m1. exact Hrun. }
    destruct Hw as (m1 & Hrun).
    pose proof (write_bytes_length _ _ _ _ _ _ _ Hrun) as Hl1.
    pose proof (write_bytes_singletons _ _ _ _ _ _ _ Hhex Hall Hrun) as Hs1.
    destruct (IH m1 (seq ++ map byte_value (data e))%list Hes) as (mem' & Hrest & Hl & Hs);
      [rewrite Hl1; exact Hlen | exact Hs1 |].
    exists mem'. simpl. rewrite Hrun. simpl mbind. rewrite Hrest.
    split; [rewrite <- app_assoc; reflexivity|].
    split; [rewrite Hl; exact Hl1 | exact Hs].
Qed.

(** X23.  When every transaction fits the device (two-digit data bytes,
    and for a transaction that has data an address that reads as a number
    with its last byte inside the device size), both files are written:
    the sequential file holds the data bytes of all transactions in the
    order met, and the image file has exactly the device size in bytes.
    A transaction without data fits whatever its address, the empty
    address of a quad read included. *)
Theorem binary_files_of_fitting dev (results : list transaction) :
  forallb (tx_fits (SIZE dev)) results = true ->
  exists img,
    binary_files dev results
    = Some (concat (map (fun e => map byte_value (data e)) results), img)
    /\ Z.of_nat (length img) = Z.max 0 (SIZE dev).
Proof.
  intros Hfit. unfold binary_files.
  destruct (write_entries_fit (SIZE dev) results
              (replicate (Z.to_nat (SIZE dev)) [0]) [] Hfit)
    as (mem' & Hrun & Hl & Hs).
  - rewrite length_replicate. lia.
  - apply Forall_replicate. reflexivity.
  - rewrite Hrun. simpl. eexists. split; [reflexivity|].
    rewrite (concat_singletons mem' Hs), Hl, length_replicate. lia.
Qed.

Lemma binary_files_of_fitting_witness :
  exists img,
    binary_files small_device
      [Transaction "000002" ["AA"; "0b"]; Transaction EmptyString [];
       Transaction "000007" ["FF"]]
    = Some (concat (map (fun e => map byte_value (data e))
                      [Transaction "000002" ["AA"; "0b"]; Transaction EmptyString [];
                       Transaction "000007" ["FF"]]), img)
    /\ Z.of_nat (length img) = Z.max 0 (SIZE small_device).
Proof.
  apply (binary_files_of_fitting small_device
           [Transaction "000002" ["AA"; "0b"]; Transaction EmptyString [];
            Transaction "000007" ["FF"]]).
  vm_compute. reflexivity.
Defined.

(** ** An SPI export without a data-line column *)

(** X24.  When the header names neither [miso] nor [MISO], the SPI
    reader appends nothing, whatever rows follow: it either returns at the
    first well-formed row that would carry data, reaches the end of the
    stream, or raises, and in the first two cases the result set is
    empty. *)
Theorem spi_no_data_line_no_results dev (h : string) (rows : list string) :
  "miso" ∉ spi_headers h -> "MISO" ∉ spi_headers h ->
  match spi_read_file dev (h :: rows) with
  | Continue st | Return st => spi_results st = []
  | Raise => True
  end.
Proof.
  intros Hm HM. unfold spi_read_file.
  pose proof (spi_no_miso_column dev (spi_headers h)
                (header_positions (fun x => x) (spi_headers h) 0 ∅) rows spi_init
                Hm HM eq_refl eq_refl) as H.
  destruct (spi_lines _ _ _ _ _) as [st|st|]; tauto.
Qed.

Lemma spi_no_data_line_no_results_witness :
  match spi_read_file (select_device None)
          ("Time [s],name,type,mosi,data" :: no_data_column_trace) with
  | Continue st | Return st => spi_results st = []
  | Raise => True
  end.
Proof.
  apply (spi_no_data_line_no_results (select_device None)
           "Time [s],name,type,mosi,data" no_data_column_trace).
  - vm_compute. intros H. repeat (apply elem_of_cons in H as [H|H]; [discriminate|]).
    apply elem_of_nil in H. exact H.
  - vm_compute. intros H. repeat (apply elem_of_cons in H as [H|H]; [discriminate|]).
    apply elem_of_nil in H. exact H.
Defined.
